(** * dkvs: the Raft core of tthanh/dkvs, embedded in Rocq

    The development follows the two Go files of package [raft]:
    - [raft/inmem_logstore.go]: the in-memory log store;
    - [raft/raft.go]: the follower / candidate / leader loops and the
      handlers of the two RPCs.

    Go values are modelled as follows.  A [uint64] is a [Z] in
    [0, 2^64), with the wrap-around of [+ 1] written out ([u64]); an [int]
    is a [Z] with the two's complement wrap-around ([int64]).  A slice is
    a list; where the code keeps reading a slice header while the backing
    array is rewritten ([DeleteRange]) the backing array and the current
    length are kept apart.  A Go function that may fail returns an
    [outcome]: a value, an [error], or a run-time panic.  Go maps are
    stdpp [gmap]s. *)

From Stdlib Require Import ZArith Lia.
From stdpp Require Import gmap strings list fin_maps.

Local Open Scope Z_scope.

(** ** Machine integers *)

Definition u64 (x : Z) : Z := x mod 2 ^ 64.
Definition int64 (x : Z) : Z := (x + 2 ^ 63) mod 2 ^ 64 - 2 ^ 63.

(** ** Errors, and the three ways a call can end *)

Inductive error : Type :=
| Errorf (format : string) (arg : Z)   (* fmt.Errorf(format, arg) *)
| ErrorNew (msg : string).             (* errors.New(msg) *)

Inductive outcome (A : Type) : Type :=
| Returns (a : A)      (* normal return, err == nil *)
| Fails (e : error)    (* normal return, err != nil *)
| Panics.              (* run-time panic (index or slice bounds out of range) *)
Arguments Returns {A} a.
Arguments Fails {A} e.
Arguments Panics {A}.

Definition obind {A B} (o : outcome A) (k : A -> outcome B) : outcome B :=
  match o with
  | Returns a => k a
  | Fails e => Fails e
  | Panics => Panics
  end.

Definition omap {A B} (f : A -> B) (o : outcome A) : outcome B :=
  obind o (fun a => Returns (f a)).

(** ** Log entries

    [Index], [Term], [majorityQuorum] and [count] are the fields the two
    files read and write; [Command] stands for the opaque payload. *)

Module Log.
Record t : Type := mk {
  Index : Z;
  Term : Z;
  Command : string;
  majorityQuorum : Z;
  count : Z
}.
End Log.

(** ** The log store interface

    Modelled from the spec: the log store contract (FirstIndex, LastIndex,
    GetLog, SetLog, SetLogs, DeleteRange), whose Go interface declaration
    is not among the files at hand.  A mutating call that fails or panics
    yields no new store. *)

Class LogStore (St : Type) : Type := {
  FirstIndex : St -> outcome Z;
  LastIndex : St -> outcome Z;
  GetLog : St -> Z -> outcome Log.t;
  SetLog : St -> Log.t -> outcome St;
  SetLogs : St -> list Log.t -> outcome St;
  DeleteRange : St -> Z -> Z -> outcome St
}.

(** ** raft/inmem_logstore.go *)

Module InmemLogStore.

Record t : Type := mk { entries : list Log.t }.

Definition NewInmemLogStore : t := mk [].

(** [i.entries[0].Index]: indexing an empty slice panics. *)
Definition FirstIndex (i : t) : outcome Z :=
  match entries i !! 0%nat with
  | Some e => Returns (Log.Index e)
  | None => Panics
  end.

Definition LastIndex (i : t) : outcome Z :=
  let l := length (entries i) in
  if (0 <? l)%nat then
    match entries i !! (l - 1)%nat with
    | Some e => Returns (Log.Index e)
    | None => Panics
    end
  else Returns 0.

Fixpoint GetLog_range (es : list Log.t) (idx : Z) : outcome Log.t :=
  match es with
  | [] => Fails (Errorf "Can't get log witn index %d" idx)
  | entry :: es' =>
      if Log.Index entry =? idx then Returns entry else GetLog_range es' idx
  end.

Definition GetLog (i : t) (idx : Z) : outcome Log.t :=
  GetLog_range (entries i) idx.

Definition SetLog (i : t) (entry : Log.t) : outcome t :=
  Returns (mk (entries i ++ [entry])).

Definition SetLogs (i : t) (es : list Log.t) : outcome t :=
  Returns (mk (foldl (fun acc entry => acc ++ [entry]) (entries i) es)).

(** [append(i.entries[:j], i.entries[j+1:]...)] on the backing array
    [arr], of which the first [len] cells are the slice [i.entries].
    The slice expression [i.entries[j+1:]] panics unless [j+1 <= len]
    (and then [j <= cap] holds as well).  The append fits the capacity,
    so it moves the cells [j+1 .. len-1] one place down inside the same
    array; the cell [len-1] keeps its old content and the new slice has
    [len-1] cells. *)
Definition remove_at (j : Z) (arr : list Log.t) (len : nat)
  : option (list Log.t * nat) :=
  if j + 1 <=? Z.of_nat len then
    let p := Z.to_nat j in
    Some (take p arr ++ take (len - p - 1)%nat (drop (S p) arr)
            ++ drop (len - 1)%nat arr,
          (len - 1)%nat)
  else None.

(** The inner loop, [for _, entry := range i.entries].  The range
    expression is evaluated once: the loop visits the cells [k = 0 ..
    n-1] of the backing array as it stands when each cell is reached,
    [n] being the length before the loop, while every removal works on
    the current [i.entries]. *)
Fixpoint DeleteRange_scan (j : Z) (k n : nat) (arr : list Log.t) (len : nat)
  : option (list Log.t * nat) :=
  match n with
  | O => Some (arr, len)
  | S n' =>
      match arr !! k with
      | None => None
      | Some entry =>
          if Log.Index entry =? j then
            match remove_at j arr len with
            | None => None
            | Some (arr', len') => DeleteRange_scan j (S k) n' arr' len'
            end
          else DeleteRange_scan j (S k) n' arr len
      end
  end.

(** The outer loop, [for j := min; j < max; j++], with [n] iterations
    left.  [j < max] keeps [j + 1] below [2^64]. *)
Fixpoint DeleteRange_loop (n : nat) (j : Z) (es : list Log.t)
  : outcome (list Log.t) :=
  match n with
  | O => Returns es
  | S n' =>
      match DeleteRange_scan j 0 (length es) es (length es) with
      | None => Panics
      | Some (arr, len) => DeleteRange_loop n' (j + 1) (take len arr)
      end
  end.

Definition DeleteRange (i : t) (min max : Z) : outcome t :=
  omap mk (DeleteRange_loop (Z.to_nat (max - min)) min (entries i)).

End InmemLogStore.

#[export] Instance InmemLogStore_LogStore : LogStore InmemLogStore.t := {
  FirstIndex := InmemLogStore.FirstIndex;
  LastIndex := InmemLogStore.LastIndex;
  GetLog := InmemLogStore.GetLog;
  SetLog := InmemLogStore.SetLog;
  SetLogs := InmemLogStore.SetLogs;
  DeleteRange := InmemLogStore.DeleteRange
}.

(** ** Messages of the two RPCs *)

Module AppendEntryRequest.
Record t : Type := mk {
  Term : Z;
  Leader : string;
  PrevLogIndex : Z;
  PrevLogTerm : Z;
  Entries : list Log.t;
  LeaderCommitIndex : Z
}.
End AppendEntryRequest.

Module AppendEntryResponse.
Record t : Type := mk {
  Term : Z;
  LastLogIndex : Z;
  Success : bool
}.
End AppendEntryResponse.

Module RequestVoteRequest.
Record t : Type := mk {
  Term : Z;
  CandidateName : string;
  LastLogIndex : Z;
  LastLogTerm : Z
}.
End RequestVoteRequest.

Module RequestVoteResponse.
Record t : Type := mk {
  Term : Z;
  VoteGranted : bool
}.
End RequestVoteResponse.

(** Modelled from the spec: the constructor [newRequestVoteRequest], whose
    declaration is not among the files at hand; its four arguments are
    taken in the order of the spec's RequestVote(term, candidate,
    lastLogIndex, lastLogTerm). *)
Definition newRequestVoteRequest (term : Z) (candidateName : string)
    (lastLogIndex lastLogTerm : Z) : RequestVoteRequest.t :=
  RequestVoteRequest.mk term candidateName lastLogIndex lastLogTerm.

(** [rpc.Command] is an [interface{}]; the type switch of [processRPC]
    knows two dynamic types and a default. *)
Inductive Command : Type :=
| CmdAppendEntry (req : AppendEntryRequest.t)
| CmdRequestVote (req : RequestVoteRequest.t)
| CmdOther.

(** What [rpc.Response(resp, err)] hands back to the transport. *)
Inductive Reply : Type :=
| ReplyAppendEntry (resp : AppendEntryResponse.t) (err : option error)
| ReplyRequestVote (resp : RequestVoteResponse.t) (err : option error)
| ReplyNil (err : option error).

(** ** The server *)

Inductive State : Type := Follower | Candidate | Leader | Stopped.

#[export] Instance State_eq_dec : EqDecision State.
Proof. solve_decision. Defined.

Record follower : Type := mkFollower {
  peer : string;
  f_currentTerm : Z;
  matchIndex : Z;
  nextIndex : Z
}.

Section Raft.
Context {St : Type} {LS : LogStore St}.

(** Modelled from the spec: the [Server] struct and its accessors
    ([State], [setState], [Term], [setTerm], [LastLog], [setLastLog],
    [CommitIndex], [setCommitIndex], [setLeader], [LocalAddress],
    [QuorumSize]), declared outside the files at hand.  The fields are
    those the two files use, and the markers of the data model. *)
Record Server : Type := mkServer {
  localAddress : string;
  peers : list string;
  state : State;
  currentTerm : Z;
  votedFor : string;
  leader : string;
  commitIndex : Z;
  lastLogIndex : Z;
  lastLogTerm : Z;
  logs : St;
  applying : gmap Z Log.t;
  followers : gmap string follower
}.

Definition setState (st : State) (s : Server) : Server :=
  mkServer (localAddress s) (peers s) st (currentTerm s) (votedFor s)
    (leader s) (commitIndex s) (lastLogIndex s) (lastLogTerm s) (logs s)
    (applying s) (followers s).

Definition setCurrentTerm (t : Z) (s : Server) : Server :=
  mkServer (localAddress s) (peers s) (state s) t (votedFor s)
    (leader s) (commitIndex s) (lastLogIndex s) (lastLogTerm s) (logs s)
    (applying s) (followers s).

Definition setVotedFor (v : string) (s : Server) : Server :=
  mkServer (localAddress s) (peers s) (state s) (currentTerm s) v
    (leader s) (commitIndex s) (lastLogIndex s) (lastLogTerm s) (logs s)
    (applying s) (followers s).

Definition setLeader (l : string) (s : Server) : Server :=
  mkServer (localAddress s) (peers s) (state s) (currentTerm s) (votedFor s)
    l (commitIndex s) (lastLogIndex s) (lastLogTerm s) (logs s)
    (applying s) (followers s).

Definition setCommitIndex (c : Z) (s : Server) : Server :=
  mkServer (localAddress s) (peers s) (state s) (currentTerm s) (votedFor s)
    (leader s) c (lastLogIndex s) (lastLogTerm s) (logs s)
    (applying s) (followers s).

Definition setLastLog (idx term : Z) (s : Server) : Server :=
  mkServer (localAddress s) (peers s) (state s) (currentTerm s) (votedFor s)
    (leader s) (commitIndex s) idx term (logs s)
    (applying s) (followers s).

Definition setLogs (l : St) (s : Server) : Server :=
  mkServer (localAddress s) (peers s) (state s) (currentTerm s) (votedFor s)
    (leader s) (commitIndex s) (lastLogIndex s) (lastLogTerm s) l
    (applying s) (followers s).

Definition setApplying (a : gmap Z Log.t) (s : Server) : Server :=
  mkServer (localAddress s) (peers s) (state s) (currentTerm s) (votedFor s)
    (leader s) (commitIndex s) (lastLogIndex s) (lastLogTerm s) (logs s)
    a (followers s).

(** Modelled from the spec: [votedFor] is cleared whenever [currentTerm]
    advances. *)
Definition setTerm (t : Z) (s : Server) : Server :=
  if currentTerm s <? t then setVotedFor EmptyString (setCurrentTerm t s)
  else setCurrentTerm t s.

Definition LastLog (s : Server) : Z * Z := (lastLogIndex s, lastLogTerm s).

(** Modelled from the spec: the quorum size is [(peers+1)/2 + 1]. *)
Definition QuorumSize (s : Server) : Z :=
  (Z.of_nat (length (peers s)) + 1) / 2 + 1.

(** *** processAppendEntries (raft.go, lines 177-256)

    The result is [None] when a store call panics; otherwise the server
    as the handler leaves it and the response handed to [rpc.Response].
    The [err] given to [rpc.Response] is the outer variable, which no
    path assigns, so it is always nil. *)

(** Lines 201-215: the term this node holds for [idx]. *)
Definition localTermAt (s : Server) (idx : Z) : outcome Z :=
  let '(lastLogIndex, lastLogTerm) := LastLog s in
  if idx =? lastLogIndex then Returns lastLogTerm
  else omap Log.Term (GetLog (logs s) idx).

(** Lines 227-234: the conflicting range is deleted when the first new
    entry does not lie past the last index. *)
Definition truncateConflict (s : Server) (first : Log.t) : outcome St :=
  if Log.Index first <=? lastLogIndex s
  then DeleteRange (logs s) (Log.Index first) (lastLogIndex s)
  else Returns (logs s).

(** Lines 227-239: truncate, then append. *)
Definition storeEntries (s : Server) (first : Log.t) (entries : list Log.t)
  : outcome St :=
  obind (truncateConflict s first) (fun l => SetLogs l entries).

(** Lines 246-252. *)
Definition updateCommitIndex (leaderCommitIndex : Z) (s : Server) : Server :=
  if commitIndex s <? leaderCommitIndex
  then setCommitIndex (Z.min leaderCommitIndex (lastLogIndex s)) s
  else s.

Definition processAppendEntries (s : Server) (req : AppendEntryRequest.t)
  : option (Server * AppendEntryResponse.t) :=
  let resp := AppendEntryResponse.mk (currentTerm s) (lastLogIndex s) false in
  if AppendEntryRequest.Term req <? currentTerm s then Some (s, resp)
  else
    let '(s1, resp1) :=
      if (currentTerm s <? AppendEntryRequest.Term req)
         || negb (bool_decide (state s = Follower))
      then (setState Follower (setTerm (AppendEntryRequest.Term req) s),
            AppendEntryResponse.mk (AppendEntryRequest.Term req)
              (AppendEntryResponse.LastLogIndex resp) false)
      else (s, resp) in
    let s2 := setLeader (AppendEntryRequest.Leader req) s1 in
    match localTermAt s2 (AppendEntryRequest.PrevLogIndex req) with
    | Panics => None
    | Fails _ => Some (s2, resp1)
    | Returns prevLogTerm =>
        if negb (AppendEntryRequest.PrevLogTerm req =? prevLogTerm)
        then Some (s2, resp1)
        else
          match AppendEntryRequest.Entries req with
          | [] =>
              let s3 := updateCommitIndex
                          (AppendEntryRequest.LeaderCommitIndex req) s2 in
              Some (s3, AppendEntryResponse.mk (AppendEntryResponse.Term resp1)
                          (AppendEntryResponse.LastLogIndex resp1) true)
          | first :: _ =>
              let last := List.last (AppendEntryRequest.Entries req) first in
              match truncateConflict s2 first with
              | Panics => None
              | Fails _ => Some (s2, resp1)
              | Returns l1 =>
                  match SetLogs l1 (AppendEntryRequest.Entries req) with
                  | Panics => None
                  | Fails _ => Some (setLogs l1 s2, resp1)
                  | Returns l =>
                      let s3 := setLastLog (Log.Index last) (Log.Term last)
                                  (setLogs l s2) in
                      let s4 := updateCommitIndex
                                  (AppendEntryRequest.LeaderCommitIndex req) s3 in
                      Some (s4, AppendEntryResponse.mk
                                  (AppendEntryResponse.Term resp1)
                                  (lastLogIndex s3) true)
                  end
              end
          end
    end.

(** The server at the consistency check of [processAppendEntries], for a
    request that passed the term check: lines 194-199. *)
Definition afterTermCheck (s : Server) (req : AppendEntryRequest.t) : Server :=
  setLeader (AppendEntryRequest.Leader req)
    (if (currentTerm s <? AppendEntryRequest.Term req)
        || negb (bool_decide (state s = Follower))
     then setState Follower (setTerm (AppendEntryRequest.Term req) s)
     else s).

(** What the store holds once the entries of a request are in: lines
    223-239, the store as it is when the request has no entries. *)
Definition storeRequestEntries (s : Server) (entries : list Log.t)
  : outcome St :=
  match entries with
  | [] => Returns (logs s)
  | first :: _ => storeEntries s first entries
  end.

(** The cached last-log markers after the entries of a request: line
    241. *)
Definition lastLogAfter (s : Server) (entries : list Log.t) : Z * Z :=
  match entries with
  | [] => LastLog s
  | first :: _ =>
      let last := List.last entries first in (Log.Index last, Log.Term last)
  end.

(** *** processRequestVote (raft.go, lines 265-307) *)

Definition processRequestVote (s : Server) (req : RequestVoteRequest.t)
  : Server * RequestVoteResponse.t :=
  let resp := RequestVoteResponse.mk (currentTerm s) false in
  if RequestVoteRequest.Term req <? currentTerm s then (s, resp)
  else
    let checked :=
      if currentTerm s <? RequestVoteRequest.Term req then
        let s1 := setTerm (RequestVoteRequest.Term req) s in
        Some (s1, RequestVoteResponse.mk (currentTerm s1) false)
      else if negb (bool_decide (votedFor s = EmptyString))
              && negb (bool_decide
                         (votedFor s = RequestVoteRequest.CandidateName req))
      then None
      else Some (s, resp) in
    match checked with
    | None => (s, resp)
    | Some (s1, resp1) =>
        let '(lastIndex, lastTerm) := LastLog s1 in
        if (RequestVoteRequest.LastLogIndex req <? lastIndex)
           || (RequestVoteRequest.LastLogTerm req <? lastTerm)
        then (s1, resp1)
        else
          let s2 := setVotedFor (RequestVoteRequest.CandidateName req) s1 in
          (s2, RequestVoteResponse.mk (currentTerm s2) true)
    end.

(** A node handling vote requests one after the other: the requests
    with the response each one got, and the server at the end. *)
Fixpoint processRequestVotes (s : Server) (reqs : list RequestVoteRequest.t)
  : list (RequestVoteRequest.t * RequestVoteResponse.t) * Server :=
  match reqs with
  | [] => ([], s)
  | req :: reqs' =>
      let '(s1, resp) := processRequestVote s req in
      let '(tr, s2) := processRequestVotes s1 reqs' in
      ((req, resp) :: tr, s2)
  end.

(** *** processRequestVoteResponse (raft.go, lines 309-319) *)

Definition processRequestVoteResponse (s : Server)
    (resp : RequestVoteResponse.t) : Server * bool :=
  if RequestVoteResponse.VoteGranted resp
     && (RequestVoteResponse.Term resp =? currentTerm s)
  then (s, true)
  else if currentTerm s <? RequestVoteResponse.Term resp
  then (setState Follower (setTerm (RequestVoteResponse.Term resp) s), false)
  else (s, false).

(** *** processRPC (raft.go, lines 162-175) *)

Definition processRPC (s : Server) (cmd : Command) : option (Server * Reply) :=
  match cmd with
  | CmdAppendEntry req =>
      match processAppendEntries s req with
      | Some (s', resp) => Some (s', ReplyAppendEntry resp None)
      | None => None
      end
  | CmdRequestVote req =>
      let '(s', resp) := processRequestVote s req in
      Some (s', ReplyRequestVote resp None)
  | CmdOther => Some (s, ReplyNil (Some (ErrorNew "Unxepected Command")))
  end.

(** *** dispatchLog (raft.go, lines 126-145)

    The entry is stamped before the store is asked to keep it.  The
    result holds the server, the stamped entry and the peers whose
    replication loop is notified; [None] is a panic of the store. *)

Definition stamp (s : Server) (applyLog : Log.t) : Log.t :=
  Log.mk (u64 (lastLogIndex s + 1)) (currentTerm s) (Log.Command applyLog)
    (QuorumSize s) 0.

Definition dispatchLog (s : Server) (applyLog : Log.t)
  : option (Server * Log.t * gset string) :=
  let currentTerm := currentTerm s in
  let lastLogIndex := lastLogIndex s in
  let applyLog := stamp s applyLog in
  match SetLog (logs s) applyLog with
  | Panics => None
  | Fails _ => Some (s, applyLog, ∅)
  | Returns l =>
      let s1 := setLogs l s in
      let s2 := setApplying (<[Log.Index applyLog := applyLog]> (applying s1)) s1 in
      let s3 := setLastLog (u64 (lastLogIndex + 1)) currentTerm s2 in
      Some (s3, applyLog, dom (followers s3))
  end.

(** *** runAsCandidate (raft.go, lines 51-94)

    The loop is run against the events its [select] takes, in the order
    it takes them: the stop signal, a vote response on the response
    channel of the round, an inbound RPC, the election timer. *)

Inductive CandidateEvent : Type :=
| EvStop
| EvVoteResponse (resp : RequestVoteResponse.t)
| EvRPC (cmd : Command)
| EvElectionTimeout.

(** How a run over a list of events ends: the function returned, the
    events ran out and the loop is waiting in its [select], or the handler
    of an inbound RPC panicked. *)
Inductive LoopEnd : Type := Returned | Waiting | Panicked.

Record CandidateRun : Type := mkCandidateRun {
  run_server : Server;
  run_votesGranted : Z;
  run_sent : list (string * RequestVoteRequest.t);
  run_replies : list Reply;
  run_rest : list CandidateEvent;
  run_end : LoopEnd
}.

(** Lines 63-67: one vote request per peer, each built and sent by a
    goroutine of its own (listed here in the order of [s.peers]).  The
    goroutine reads [s.currentTerm] and the address when it runs; they
    are taken here as they are when the round starts.  The last two
    arguments are the literals 1 and 0. *)
Definition broadcastVoteRequests (s : Server)
  : list (string * RequestVoteRequest.t) :=
  map (fun peer =>
         (peer, newRequestVoteRequest (currentTerm s) (localAddress s) 1 0))
      (peers s).

(** Lines 60-61: the state a vote round starts from. *)
Definition startVoteRound (s : Server) : Server :=
  setVotedFor (localAddress s) (setCurrentTerm (u64 (currentTerm s + 1)) s).

(** Lines 59-71: the head of an iteration. *)
Definition candidatePrologue (doVote : bool) (votesGranted : Z) (s : Server)
  : Server * Z * list (string * RequestVoteRequest.t) :=
  if doVote then
    let s1 := startVoteRound s in (s1, 1, broadcastVoteRequests s1)
  else (s, votesGranted, []).

Fixpoint runAsCandidate_loop (evs : list CandidateEvent) (doVote : bool)
    (votesGranted : Z) (s : Server)
    (sent : list (string * RequestVoteRequest.t)) (replies : list Reply)
    {struct evs} : CandidateRun :=
  if negb (bool_decide (state s = Candidate))
  then mkCandidateRun s votesGranted sent replies evs Returned
  else
    let '(s1, votes1, out) := candidatePrologue doVote votesGranted s in
    let sent1 := sent ++ out in
    if votes1 =? QuorumSize s1
    then mkCandidateRun (setState Leader s1) votes1 sent1 replies evs Returned
    else
      match evs with
      | [] => mkCandidateRun s1 votes1 sent1 replies [] Waiting
      | EvStop :: evs' =>
          mkCandidateRun (setState Stopped s1) votes1 sent1 replies evs' Returned
      | EvVoteResponse resp :: evs' =>
          let '(s2, success) := processRequestVoteResponse s1 resp in
          runAsCandidate_loop evs' false
            (if success then int64 (votes1 + 1) else votes1) s2 sent1 replies
      | EvRPC cmd :: evs' =>
          match processRPC s1 cmd with
          | None => mkCandidateRun s1 votes1 sent1 replies evs' Panicked
          | Some (s2, reply) =>
              runAsCandidate_loop evs' false votes1 s2 sent1 (replies ++ [reply])
          end
      | EvElectionTimeout :: evs' =>
          runAsCandidate_loop evs' true votes1 s1 sent1 replies
      end.

Definition runAsCandidate (s : Server) (evs : list CandidateEvent)
  : CandidateRun :=
  runAsCandidate_loop evs true 0 s [] [].

End Raft.
Arguments Server St : clear implicits.

(** The constants [runAsCandidate] builds every vote request with. *)
Definition carries_1_0 (out : string * RequestVoteRequest.t) : Prop :=
  RequestVoteRequest.LastLogIndex out.2 = 1 /\
  RequestVoteRequest.LastLogTerm out.2 = 0.

(** A log whose entries carry the indices 1, 2, 3, ... in order. *)
Definition contiguous (es : list Log.t) : Prop :=
  forall (i : nat) (e : Log.t), es !! i = Some e -> Log.Index e = Z.of_nat i + 1.

(** ** The follower and the leader loops *)

Section Loops.
Context {St : Type} {LS : LogStore St}.

Definition setFollowers (f : gmap string follower) (s : Server St) : Server St :=
  mkServer (localAddress s) (peers s) (state s) (currentTerm s) (votedFor s)
    (leader s) (commitIndex s) (lastLogIndex s) (lastLogTerm s) (logs s)
    (applying s) f.

(** *** runAsFollower (raft.go, lines 30-49)

    The events are those the [select] of the loop takes: an inbound RPC,
    the election timer, the stop signal.  The resets of the timer are not
    part of the model. *)

Inductive FollowerEvent : Type :=
| FEvRPC (cmd : Command)
| FEvElectionTimeout
| FEvStop.

Record FollowerRun : Type := mkFollowerRun {
  frun_server : Server St;
  frun_replies : list Reply;
  frun_rest : list FollowerEvent;
  frun_end : LoopEnd
}.

Fixpoint runAsFollower_loop (evs : list FollowerEvent) (s : Server St)
    (replies : list Reply) {struct evs} : FollowerRun :=
  if negb (bool_decide (state s = Follower))
  then mkFollowerRun s replies evs Returned
  else
    match evs with
    | [] => mkFollowerRun s replies [] Waiting
    | FEvRPC cmd :: evs' =>
        match processRPC s cmd with
        | None => mkFollowerRun s replies evs' Panicked
        | Some (s1, reply) => runAsFollower_loop evs' s1 (replies ++ [reply])
        end
    | FEvElectionTimeout :: evs' =>
        runAsFollower_loop evs' (setState Candidate s) replies
    | FEvStop :: evs' => mkFollowerRun (setState Stopped s) replies evs' Returned
    end.

Definition runAsFollower (s : Server St) (evs : list FollowerEvent)
  : FollowerRun :=
  runAsFollower_loop evs s [].

(** *** startReplication (raft.go, lines 147-160)

    The record of the peer is put into [s.followers]; the replication
    goroutine it starts, [s.replicate], is not among the files at hand
    and is left to the events of the leader loop. *)

Definition startReplication (s : Server St) (peer : string) : Server St :=
  let lastLogIndex := lastLogIndex s in
  let f := mkFollower peer (currentTerm s) 0 (u64 (lastLogIndex + 1)) in
  setFollowers (<[peer := f]> (followers s)) s.

(** *** runAsLeader (raft.go, lines 96-124)

    The events are those the [select] of the loop takes: the stop signal,
    an inbound RPC, a proposal on [applyCh], a committed entry on
    [commitCh]. *)

Inductive LeaderEvent : Type :=
| LEvStop
| LEvRPC (cmd : Command)
| LEvApply (newLog : Log.t)
| LEvCommit (commitLog : Log.t).

Record LeaderRun : Type := mkLeaderRun {
  lrun_server : Server St;
  lrun_replies : list Reply;
  (* the entries handed to the store by [dispatchLog], as stamped *)
  lrun_dispatched : list Log.t;
  (* the followers whose [stopCh] the loop closed *)
  lrun_closed : gset string;
  lrun_rest : list LeaderEvent;
  lrun_end : LoopEnd
}.

(** Lines 98-105: fresh maps, then one record per peer. *)
Definition leaderInit (s : Server St) : Server St :=
  foldl startReplication (setApplying ∅ (setFollowers ∅ s)) (peers s).

Fixpoint runAsLeader_loop (evs : list LeaderEvent) (s : Server St)
    (replies : list Reply) (dispatched : list Log.t) {struct evs} : LeaderRun :=
  if negb (bool_decide (state s = Leader))
  then mkLeaderRun s replies dispatched ∅ evs Returned
  else
    match evs with
    | [] => mkLeaderRun s replies dispatched ∅ [] Waiting
    | LEvStop :: evs' =>
        mkLeaderRun s replies dispatched (dom (followers s)) evs' Returned
    | LEvRPC cmd :: evs' =>
        match processRPC s cmd with
        | None => mkLeaderRun s replies dispatched ∅ evs' Panicked
        | Some (s1, reply) =>
            runAsLeader_loop evs' s1 (replies ++ [reply]) dispatched
        end
    | LEvApply newLog :: evs' =>
        match dispatchLog s newLog with
        | None => mkLeaderRun s replies dispatched ∅ evs' Panicked
        | Some (s1, entry, _) =>
            runAsLeader_loop evs' s1 replies (dispatched ++ [entry])
        end
    | LEvCommit commitLog :: evs' =>
        runAsLeader_loop evs' (setCommitIndex (Log.Index commitLog) s) replies
          dispatched
    end.

Definition runAsLeader (s : Server St) (evs : list LeaderEvent) : LeaderRun :=
  runAsLeader_loop evs (leaderInit s) [] [].

(** Proposals handed to [dispatchLog] one after the other; [None] is a
    panic of the store. *)
Fixpoint dispatchLogs (s : Server St) (newLogs : list Log.t)
  : option (Server St * list Log.t) :=
  match newLogs with
  | [] => Some (s, [])
  | newLog :: rest =>
      match dispatchLog s newLog with
      | None => None
      | Some (s1, entry, _) =>
          match dispatchLogs s1 rest with
          | None => None
          | Some (s2, entries) => Some (s2, entry :: entries)
          end
      end
  end.


End Loops.

(** The entry [dispatchLog] makes of the [k]-th proposal of a run that
    starts from [s], when the indices stay below [2^64]. *)
Definition stampAt {St : Type} (s : Server St) (k : nat) (newLog : Log.t)
  : Log.t :=
  Log.mk (lastLogIndex s + Z.of_nat k + 1) (currentTerm s)
    (Log.Command newLog) (QuorumSize s) 0.

(** The last-log markers a list of entries stands for: index and term of
    its last entry, zero for the empty list. *)
Definition markers_of (es : list Log.t) : Z * Z :=
  match last es with
  | Some e => (Log.Index e, Log.Term e)
  | None => (0, 0)
  end.

(** The cached markers of a server on the in-memory store describe the
    last stored entry. *)
Definition coherent (s : Server InmemLogStore.t) : Prop :=
  LastLog s = markers_of (InmemLogStore.entries (logs s)).

(** ** A second log store

    Modelled from the spec: a store that keeps the contract's contiguity
    rule, refusing an entry whose index is not one past its last index.
    It stands for the implementations of the interface whose [SetLog] can
    fail. *)

Module StrictLogStore.

Record t : Type := mk { entries : list Log.t }.

Definition lastIndex (i : t) : Z :=
  match last (entries i) with
  | Some e => Log.Index e
  | None => 0
  end.

Definition SetLog (i : t) (entry : Log.t) : outcome t :=
  if Log.Index entry =? lastIndex i + 1
  then Returns (mk (entries i ++ [entry]))
  else Fails (ErrorNew "log index is not contiguous").

Fixpoint SetLogs (i : t) (es : list Log.t) : outcome t :=
  match es with
  | [] => Returns i
  | e :: es' => obind (SetLog i e) (fun i' => SetLogs i' es')
  end.

Definition DeleteRange (i : t) (min max : Z) : outcome t :=
  Returns (mk (filter (fun e => ¬ (min <= Log.Index e < max)) (entries i))).

End StrictLogStore.

#[export] Instance StrictLogStore_LogStore : LogStore StrictLogStore.t := {
  FirstIndex i := Returns (default 0 (Log.Index <$> head (StrictLogStore.entries i)));
  LastIndex i := Returns (StrictLogStore.lastIndex i);
  GetLog i idx := InmemLogStore.GetLog_range (StrictLogStore.entries i) idx;
  SetLog := StrictLogStore.SetLog;
  SetLogs := StrictLogStore.SetLogs;
  DeleteRange := StrictLogStore.DeleteRange
}.

(** ** Sample values *)

Definition entry_at (idx term : Z) : Log.t := Log.mk idx term EmptyString 0 0.

(** A store holding entries with the given indices, all of term 1. *)
Definition store_of (idxs : list Z) : InmemLogStore.t :=
  InmemLogStore.mk (map (fun i => entry_at i 1) idxs).

Definition indices_of (o : outcome InmemLogStore.t) : outcome (list Z) :=
  omap (fun st => map Log.Index (InmemLogStore.entries st)) o.

(** A follower of a three-node cluster at term 0, with no vote, no
    leader and the markers at zero, on the given store. *)
Definition node {St : Type} (addr : string) (l : St) : Server St :=
  mkServer addr ["n2"; "n3"] Follower 0 EmptyString EmptyString 0 0 0 l ∅ ∅.


(** The follower of the spec's scenario: last index 5, last term 3. *)
Definition follower_5_3 : Server InmemLogStore.t :=
  mkServer "n1" ["n2"; "n3"] Follower 3 "n2" "n2" 5 5 3
    (InmemLogStore.mk
       [entry_at 1 1; entry_at 2 1; entry_at 3 2; entry_at 4 3; entry_at 5 3])
    ∅ ∅.

(** The candidate of the spec's scenario: term 4, voted for itself. *)
Definition candidate_4 : Server InmemLogStore.t :=
  mkServer "n1" ["n2"; "n3"] Candidate 4 "n1" EmptyString 0 0 0
    (InmemLogStore.mk []) ∅ ∅.

(** A candidate of a three-node cluster about to run its first round. *)
Definition candidate_0 : Server InmemLogStore.t :=
  mkServer "n1" ["n2"; "n3"] Candidate 0 EmptyString EmptyString 0 0 0
    (store_of []) ∅ ∅.


(** The leader of the spec's scenario: term 2, empty log, two followers. *)
Definition leader_2 : Server InmemLogStore.t :=
  mkServer "n1" ["n2"; "n3"] Leader 2 "n1" EmptyString 0 0 0 (store_of [])
    ∅ {[ "n2" := mkFollower "n2" 2 0 1; "n3" := mkFollower "n3" 2 0 1 ]}.

(** A leader on the strict store whose cached last index, 5, is ahead of
    the store, which ends at index 3. *)
Definition leader_stale : Server StrictLogStore.t :=
  mkServer "n1" ["n2"; "n3"] Leader 2 "n1" EmptyString 0 5 2
    (StrictLogStore.mk [entry_at 1 1; entry_at 2 1; entry_at 3 2])
    ∅ {[ "n2" := mkFollower "n2" 2 0 6; "n3" := mkFollower "n3" 2 0 6 ]}.

(** The proposal of the spec's scenario, as it reaches [dispatchLog]. *)
Definition proposal : Log.t := Log.mk 0 0 "x=1" 0 0.

(** A heartbeat of the leader of term 3 to the follower of the scenario. *)
Definition heartbeat_5_3 : AppendEntryRequest.t :=
  AppendEntryRequest.mk 3 "n2" 5 3 [] 4.




(** * Properties *)

(** ** The in-memory log store *)

Section InmemLogStoreFacts.
Import InmemLogStore.

Lemma SetLogs_fold (l es : list Log.t) :
  foldl (fun acc entry => acc ++ [entry]) l es = l ++ es.
Proof.
  revert l. induction es as [|e es IH]; intros l; simpl.
  - by rewrite app_nil_r.
  - rewrite IH. by rewrite <- app_assoc.
Qed.

Lemma GetLog_range_Returns es idx e :
  GetLog_range es idx = Returns e -> e ∈ es /\ Log.Index e = idx.
Proof.
  induction es as [|x es IH]; simpl; [done|].
  destruct (Log.Index x =? idx) eqn:E.
  - intros [= ->]. split; [left | lia].
  - intros H. destruct (IH H) as [? ?]. split; [by right | done].
Qed.

Lemma GetLog_range_not_Panics es idx : GetLog_range es idx <> Panics.
Proof.
  induction es as [|x es IH]; simpl; [done|].
  by destruct (Log.Index x =? idx).
Qed.

Lemma GetLog_range_Fails es idx err :
  GetLog_range es idx = Fails err -> Forall (fun e => Log.Index e <> idx) es.
Proof.
  induction es as [|x es IH]; simpl; [by constructor|].
  destruct (Log.Index x =? idx) eqn:E; [done|].
  intros H. constructor; [lia | auto].
Qed.

End InmemLogStoreFacts.

(** C5, for [LastIndex]: on a store without entries it returns zero and
    no error.  For [FirstIndex] the same call panics: the function reads
    [i.entries[0]] without the length test its sibling makes. *)
Theorem FirstIndex_LastIndex_empty :
  LastIndex InmemLogStore.NewInmemLogStore = Returns 0 /\
  FirstIndex InmemLogStore.NewInmemLogStore = Panics.
Proof. split; reflexivity. Qed.

(** C4, as the code has it: [SetLog] and [SetLogs] never fail and never
    look at an index; they put the entry, or the entries in their order,
    at the end of the store. *)
Theorem SetLog_SetLogs_always_append (i : InmemLogStore.t) :
  (forall entry : Log.t,
      SetLog i entry
      = Returns (InmemLogStore.mk (InmemLogStore.entries i ++ [entry]))) /\
  (forall es : list Log.t,
      SetLogs i es
      = Returns (InmemLogStore.mk (InmemLogStore.entries i ++ es))).
Proof.
  split; [reflexivity|].
  intros es. simpl. unfold InmemLogStore.SetLogs. by rewrite SetLogs_fold.
Qed.

(** C4 fails as stated: a store whose last index is 2 takes an entry of
    index 7, and a batch that starts at index 9, without an error, and
    both calls change the store. *)
Lemma SetLog_accepts_a_gap :
  LastIndex (store_of [1; 2]) = Returns 2 /\
  SetLog (store_of [1; 2]) (entry_at 7 1) = Returns (store_of [1; 2; 7]) /\
  SetLogs (store_of [1; 2]) [entry_at 9 1; entry_at 10 1]
  = Returns (store_of [1; 2; 9; 10]) /\
  store_of [1; 2; 7] <> store_of [1; 2] /\
  store_of [1; 2; 9; 10] <> store_of [1; 2].
Proof. repeat split; try reflexivity; discriminate. Qed.

(** ** What [DeleteRange] does on a contiguous log *)

Section DeleteRangeFacts.
Import InmemLogStore.

(** A cut keeps the backing array at its length, so the scan never
    reads past it: the only panic of [DeleteRange] is the one of the
    slice bounds. *)
Lemma remove_at_length (j : Z) (arr arr' : list Log.t) (len len' : nat) :
  0 <= j -> (len <= length arr)%nat ->
  remove_at j arr len = Some (arr', len') ->
  length arr' = length arr /\ (len' <= length arr')%nat.
Proof.
  intros Hj Hlen. unfold remove_at.
  destruct (j + 1 <=? Z.of_nat len) eqn:E; [|done].
  intros [= <- <-].
  rewrite !length_app, !length_take, !length_drop. lia.
Qed.

Lemma DeleteRange_scan_reads_inside (j : Z) (n : nat) :
  forall (k : nat) (arr : list Log.t) (len : nat),
    0 <= j -> (len <= length arr)%nat -> (k + n <= length arr)%nat ->
    DeleteRange_scan j k n arr len = None ->
    exists arr' len' e,
      (len' <= len)%nat /\ Log.Index e = j /\ remove_at j arr' len' = None.
Proof.
  induction n as [|n IH]; intros k arr len Hj Hlen Hk; simpl; [done|].
  destruct (lookup_lt_is_Some_2 arr k ltac:(lia)) as [e He]. rewrite He.
  destruct (Log.Index e =? j) eqn:E.
  - destruct (remove_at j arr len) as [[arr' len']|] eqn:Er.
    + destruct (remove_at_length _ _ _ _ _ Hj Hlen Er) as [Hl Hl'].
      assert (len' <= len)%nat as Hle.
      { unfold remove_at in Er. destruct (j + 1 <=? Z.of_nat len); [|done].
        injection Er as <- <-. lia. }
      intros H. destruct (IH (S k) arr' len' Hj Hl' ltac:(lia) H)
        as (a & l & x & ? & ? & ?).
      exists a, l, x. split; [lia | done].
    + intros _. exists arr, len, e. split; [lia|]. split; [lia | done].
  - intros H. by apply (IH (S k) arr len Hj Hlen ltac:(lia)).
Qed.

(** Cells that do not hold index [j] are passed over. *)
Lemma DeleteRange_scan_skip (j : Z) (n : nat) :
  forall (k : nat) (arr : list Log.t) (len : nat),
    (forall i e, (k <= i < k + n)%nat -> arr !! i = Some e -> Log.Index e <> j) ->
    (k + n <= length arr)%nat ->
    DeleteRange_scan j k n arr len = Some (arr, len).
Proof.
  induction n as [|n IH]; intros k arr len Hno Hlen; simpl; [done|].
  destruct (lookup_lt_is_Some_2 arr k ltac:(lia)) as [e He].
  rewrite He.
  destruct (Log.Index e =? j) eqn:E.
  - exfalso. apply (Hno k e); [lia | done | lia].
  - apply IH; [|lia]. intros i e' Hi. apply Hno. lia.
Qed.

(** A scan of [a + b] cells is a scan of [a] cells followed by one of
    [b] cells. *)
Lemma DeleteRange_scan_app (j : Z) (a b : nat) :
  forall (k : nat) (arr : list Log.t) (len : nat),
    DeleteRange_scan j k (a + b) arr len
    = match DeleteRange_scan j k a arr len with
      | None => None
      | Some (arr', len') => DeleteRange_scan j (k + a) b arr' len'
      end.
Proof.
  induction a as [|a IH]; intros k arr len; simpl.
  - by rewrite Nat.add_0_r.
  - destruct (arr !! k) as [e|]; [|done].
    destruct (Log.Index e =? j).
    + destruct (remove_at j arr len) as [[arr' len']|]; [|done].
      rewrite IH. by replace (S k + a)%nat with (k + S a)%nat by lia.
    + rewrite IH. by replace (S k + a)%nat with (k + S a)%nat by lia.
Qed.

(** On a log whose entries carry the indices 1, 2, ... in order,
    [DeleteRange(j, j+1)] with [j] below the last index removes the cell
    at position [j], which holds the entry of index [j + 1], and keeps
    the entry of index [j]. *)
Lemma DeleteRange_one_contiguous (es : list Log.t) (j : Z) :
  contiguous es ->
  1 <= j < Z.of_nat (length es) ->
  DeleteRange (mk es) j (j + 1)
  = Returns (mk (take (Z.to_nat j) es ++ drop (S (Z.to_nat j)) es)).
Proof.
  intros Hc Hj. unfold DeleteRange.
  replace (Z.to_nat (j + 1 - j)) with 1%nat by lia. simpl.
  set (n := length es). set (p := Z.to_nat j).
  assert (1 <= p < n)%nat as Hp by (subst p n; lia).
  replace n with ((p - 1) + (1 + (n - p)))%nat at 1 by lia.
  rewrite DeleteRange_scan_app.
  rewrite DeleteRange_scan_skip; cycle 1.
  { intros i e Hi He. rewrite (Hc i e He). lia. }
  { subst n. lia. }
  rewrite DeleteRange_scan_app. simpl.
  destruct (lookup_lt_is_Some_2 es (p - 1) ltac:(subst n; lia)) as [e He].
  rewrite He. pose proof (Hc _ _ He) as Hidx.
  destruct (Log.Index e =? j) eqn:E; [|lia].
  unfold remove_at. destruct (j + 1 <=? Z.of_nat n) eqn:E1; [|lia].
  fold p.
  rewrite (take_ge (drop (S p) es)) by (rewrite length_drop; subst n; lia).
  rewrite DeleteRange_scan_skip; cycle 1.
  { intros i e' Hi. replace (p - 1 + 1)%nat with p in Hi by lia.
    rewrite lookup_app_r by (rewrite length_take; subst n; lia).
    rewrite length_take. replace (p `min` length es)%nat with p by (subst n; lia).
    intros He'. apply list_elem_of_lookup_2 in He'.
    apply elem_of_app in He' as [Hin|Hin];
      apply list_elem_of_lookup_1 in Hin as [i' Hi'];
      rewrite lookup_drop in Hi'; rewrite (Hc _ _ Hi'); lia. }
  { rewrite !length_app, length_take, !length_drop. subst n. lia. }
  rewrite app_assoc. unfold omap. simpl. do 2 f_equal.
  apply take_app_length'.
  rewrite length_app, length_take, length_drop. subst n. lia.
Qed.

(** With [j] the last index the cut runs past the slice and the call
    panics. *)
Lemma DeleteRange_last_contiguous (es : list Log.t) :
  contiguous es -> es <> [] ->
  DeleteRange (mk es) (Z.of_nat (length es)) (Z.of_nat (length es) + 1)
  = Panics.
Proof.
  intros Hc Hne. unfold DeleteRange.
  replace (Z.to_nat (Z.of_nat (length es) + 1 - Z.of_nat (length es)))
    with 1%nat by lia.
  simpl.
  set (n := length es).
  assert (1 <= n)%nat as Hn by (subst n; destruct es; simpl; [done | lia]).
  replace n with ((n - 1) + 1)%nat at 2 by lia.
  rewrite DeleteRange_scan_app.
  rewrite DeleteRange_scan_skip; cycle 1.
  { intros i e Hi He. rewrite (Hc i e He). lia. }
  { subst n. lia. }
  simpl.
  destruct (lookup_lt_is_Some_2 es (n - 1) ltac:(subst n; lia)) as [e He].
  rewrite He. pose proof (Hc _ _ He) as Hidx.
  destruct (Log.Index e =? Z.of_nat n) eqn:E; [|lia].
  unfold remove_at.
  by destruct (Z.of_nat n + 1 <=? Z.of_nat n) eqn:E1; [lia|].
Qed.

End DeleteRangeFacts.

(** C3 fails on the code: [DeleteRange] looks for the entry whose [Index]
    is [j] but then cuts the cell of slice position [j].  On the log of
    indices 1, 2, 3 the call [DeleteRange(2, 3)] keeps entry 2 and drops
    entry 3, [DeleteRange(1, 3)] drops entry 2 only, and [DeleteRange(3,
    4)] panics on its slice bounds. *)
Theorem DeleteRange_cuts_by_position :
  indices_of (DeleteRange (store_of [1; 2; 3]) 2 3) = Returns [1; 2] /\
  indices_of (DeleteRange (store_of [1; 2; 3]) 1 3) = Returns [1; 3] /\
  indices_of (DeleteRange (store_of [1; 2; 3]) 3 4) = Panics.
Proof. repeat split; vm_compute; reflexivity. Qed.

(** ** The RPC handlers *)

Section RaftFacts.
Context {St : Type} {LS : LogStore St}.
Implicit Types (s : Server St).

Lemma setTerm_currentTerm t s : currentTerm (setTerm t s) = t.
Proof. unfold setTerm. by destruct (currentTerm s <? t). Qed.

Lemma setTerm_state t s : state (setTerm t s) = state s.
Proof. unfold setTerm. by destruct (currentTerm s <? t). Qed.

Lemma setTerm_markers t s :
  lastLogIndex (setTerm t s) = lastLogIndex s /\
  lastLogTerm (setTerm t s) = lastLogTerm s /\
  commitIndex (setTerm t s) = commitIndex s /\
  logs (setTerm t s) = logs s.
Proof. unfold setTerm. by destruct (currentTerm s <? t). Qed.

Lemma setTerm_votedFor_advance t s :
  currentTerm s < t -> votedFor (setTerm t s) = EmptyString.
Proof.
  intros H. unfold setTerm.
  destruct (currentTerm s <? t) eqn:E; [done | lia].
Qed.

Lemma localTermAt_ext s s' idx :
  lastLogIndex s' = lastLogIndex s -> lastLogTerm s' = lastLogTerm s ->
  logs s' = logs s -> localTermAt s' idx = localTermAt s idx.
Proof. unfold localTermAt, LastLog. by intros -> -> ->. Qed.

Lemma truncateConflict_ext s s' first :
  lastLogIndex s' = lastLogIndex s -> logs s' = logs s ->
  truncateConflict s' first = truncateConflict s first.
Proof. unfold truncateConflict. by intros -> ->. Qed.

Lemma afterTermCheck_markers s req :
  lastLogIndex (afterTermCheck s req) = lastLogIndex s /\
  lastLogTerm (afterTermCheck s req) = lastLogTerm s /\
  commitIndex (afterTermCheck s req) = commitIndex s /\
  logs (afterTermCheck s req) = logs s.
Proof.
  unfold afterTermCheck.
  destruct (_ || _); simpl; [apply setTerm_markers | done].
Qed.

(** A rejection on the consistency check, over any log store. *)
Lemma processAppendEntries_mismatch s (req : AppendEntryRequest.t) :
  localTermAt s (AppendEntryRequest.PrevLogIndex req) <> Panics ->
  localTermAt s (AppendEntryRequest.PrevLogIndex req)
    <> Returns (AppendEntryRequest.PrevLogTerm req) ->
  exists s' resp,
    processAppendEntries s req = Some (s', resp) /\
    AppendEntryResponse.Success resp = false /\
    logs s' = logs s /\
    lastLogIndex s' = lastLogIndex s /\ lastLogTerm s' = lastLogTerm s.
Proof.
  intros Hnp Hne. unfold processAppendEntries.
  destruct (AppendEntryRequest.Term req <? currentTerm s); [by eauto 10|].
  destruct (afterTermCheck_markers s req) as (Hi & Ht & _ & Hl).
  pose proof (localTermAt_ext s (afterTermCheck s req)
                (AppendEntryRequest.PrevLogIndex req) Hi Ht Hl) as Hloc.
  unfold afterTermCheck in *.
  destruct (_ || _); simpl in *.
  - rewrite Hloc.
    destruct (localTermAt s _) as [t|e|] eqn:E; [| by eauto 10 | done].
    destruct (AppendEntryRequest.PrevLogTerm req =? t) eqn:Et; simpl.
    + exfalso. apply Hne. f_equal. lia.
    + by eauto 10.
  - rewrite Hloc.
    destruct (localTermAt s _) as [t|e|] eqn:E; [| by eauto 10 | done].
    destruct (AppendEntryRequest.PrevLogTerm req =? t) eqn:Et; simpl.
    + exfalso. apply Hne. f_equal. lia.
    + by eauto 10.
Qed.

Lemma setLastLog_setLogs_id s :
  setLastLog (lastLogIndex s) (lastLogTerm s) (setLogs (logs s) s) = s.
Proof. by destruct s. Qed.

(** A request that passes the term and the consistency check, and whose
    entries the store takes, over any log store. *)
Lemma processAppendEntries_accepted s (req : AppendEntryRequest.t) l :
  currentTerm s <= AppendEntryRequest.Term req ->
  localTermAt s (AppendEntryRequest.PrevLogIndex req)
    = Returns (AppendEntryRequest.PrevLogTerm req) ->
  storeRequestEntries s (AppendEntryRequest.Entries req) = Returns l ->
  let last := lastLogAfter s (AppendEntryRequest.Entries req) in
  exists resp,
    processAppendEntries s req
    = Some (updateCommitIndex (AppendEntryRequest.LeaderCommitIndex req)
              (setLastLog last.1 last.2 (setLogs l (afterTermCheck s req))),
            resp) /\
    AppendEntryResponse.Success resp = true /\
    AppendEntryResponse.LastLogIndex resp = last.1.
Proof.
  intros Hterm Hloc Hstore last. subst last. unfold processAppendEntries.
  destruct (AppendEntryRequest.Term req <? currentTerm s) eqn:Et; [lia|].
  destruct (afterTermCheck_markers s req) as (Hi & Ht & Hc & Hl).
  pose proof (localTermAt_ext s (afterTermCheck s req)
                (AppendEntryRequest.PrevLogIndex req) Hi Ht Hl) as Hloc'.
  pose proof (fun first =>
                truncateConflict_ext s (afterTermCheck s req) first Hi Hl)
    as Htr.
  pose proof (setLastLog_setLogs_id (afterTermCheck s req)) as Hid.
  rewrite Hi, Ht, Hl in Hid.
  unfold afterTermCheck in *.
  unfold storeRequestEntries, storeEntries, lastLogAfter in *.
  destruct (_ || _); simpl in *;
    rewrite Hloc', Hloc, Z.eqb_refl; simpl;
    (destruct (AppendEntryRequest.Entries req) as [|first rest] eqn:Ee;
     [ injection Hstore as <-; simpl; rewrite Hid;
       eexists; split; [reflexivity|done]
     | rewrite Htr;
       destruct (truncateConflict s first) as [l1| |]; simpl in Hstore;
         [|done|done];
       rewrite Hstore; eexists; split; [reflexivity|done] ]).
Qed.



End RaftFacts.

(** On the in-memory store, entries that start past the last index are
    appended to the log as it is. *)
Lemma storeRequestEntries_inmem_append (s : Server InmemLogStore.t)
    (first : Log.t) (rest : list Log.t) :
  lastLogIndex s < Log.Index first ->
  storeRequestEntries s (first :: rest)
  = Returns (InmemLogStore.mk
               (InmemLogStore.entries (logs s) ++ first :: rest)).
Proof.
  intros H. unfold storeRequestEntries, storeEntries, truncateConflict.
  destruct (Log.Index first <=? lastLogIndex s) eqn:E; [lia|].
  simpl. unfold InmemLogStore.SetLogs. by rewrite SetLogs_fold.
Qed.


(** On the in-memory store the local term at an index is the cached last
    term when the index is the cached last index, and otherwise the term
    of the first entry of that index; the lookup fails when there is no
    such entry, and never panics. *)
Lemma localTermAt_inmem (s : Server InmemLogStore.t) (idx : Z) :
  localTermAt s idx
  = if idx =? lastLogIndex s then Returns (lastLogTerm s)
    else omap Log.Term
           (InmemLogStore.GetLog_range (InmemLogStore.entries (logs s)) idx).
Proof. reflexivity. Qed.

Lemma localTermAt_inmem_not_Panics (s : Server InmemLogStore.t) (idx : Z) :
  localTermAt s idx <> Panics.
Proof.
  rewrite localTermAt_inmem. destruct (idx =? lastLogIndex s); [done|].
  pose proof (GetLog_range_not_Panics (InmemLogStore.entries (logs s)) idx).
  by destruct (InmemLogStore.GetLog_range _ _).
Qed.

(** C1: when the term this node holds for [prevLogIndex] (the cached last
    term when [prevLogIndex] is the cached last index, the term of the
    stored entry otherwise) is not [prevLogTerm], or when the lookup of
    [prevLogIndex] in the store finds no entry, the request is answered
    with [success = false] and the entries of the store are what they
    were. *)
Theorem processAppendEntries_rejects_mismatch
    (s : Server InmemLogStore.t) (req : AppendEntryRequest.t) :
  (exists t, localTermAt s (AppendEntryRequest.PrevLogIndex req) = Returns t /\
             t <> AppendEntryRequest.PrevLogTerm req) \/
  (exists err,
      localTermAt s (AppendEntryRequest.PrevLogIndex req) = Fails err) ->
  exists s' resp,
    processAppendEntries s req = Some (s', resp) /\
    AppendEntryResponse.Success resp = false /\
    InmemLogStore.entries (logs s') = InmemLogStore.entries (logs s).
Proof.
  intros H.
  destruct (processAppendEntries_mismatch s req) as (s' & resp & Hrun & Hok & Hl & _).
  - apply localTermAt_inmem_not_Panics.
  - destruct H as [(t & Ht & Hne) | (err & He)]; congruence.
  - exists s', resp. by rewrite Hl.
Qed.

Lemma processAppendEntries_rejects_mismatch_witness :
  exists s' resp,
    processAppendEntries follower_5_3 (AppendEntryRequest.mk 3 "n2" 5 2 [] 5)
    = Some (s', resp) /\
    AppendEntryResponse.Success resp = false /\
    InmemLogStore.entries (logs s') = InmemLogStore.entries (logs follower_5_3).
Proof.
  apply (processAppendEntries_rejects_mismatch follower_5_3
           (AppendEntryRequest.mk 3 "n2" 5 2 [] 5)).
  left. exists 3. split; [reflexivity | discriminate].
Defined.

(** The truncation of [processAppendEntries] on the in-memory store.  A
    follower holding the indices 1 to 5 that is sent entries from index 2
    on panics inside [DeleteRange]; one holding 1 to 3 that is sent the
    entries 2 and 3 of a new term keeps its own entry 2 and ends with two
    entries of index 2. *)
Example processAppendEntries_truncation_panics :
  processAppendEntries follower_5_3
    (AppendEntryRequest.mk 3 "n2" 1 1 [entry_at 2 3; entry_at 3 3] 1)
  = None.
Proof. vm_compute. reflexivity. Qed.

Example processAppendEntries_truncation_keeps_stale_entry :
  (fun r => map (fun e => (Log.Index e, Log.Term e))
              (InmemLogStore.entries (logs r.1)))
    <$> processAppendEntries
          (mkServer "n1" ["n2"; "n3"] Follower 2 "n2" "n2" 1 3 1
             (store_of [1; 2; 3]) ∅ ∅)
          (AppendEntryRequest.mk 2 "n2" 1 1 [entry_at 2 2; entry_at 3 2] 1)
  = Some [(1, 1); (2, 1); (2, 2); (3, 2)].
Proof. vm_compute. reflexivity. Qed.

(** ** Votes *)

Section VoteFacts.
Context {St : Type} {LS : LogStore St}.
Implicit Types (s : Server St).

Lemma processRequestVoteResponse_snd s (resp : RequestVoteResponse.t) :
  (processRequestVoteResponse s resp).2
  = RequestVoteResponse.VoteGranted resp
    && (RequestVoteResponse.Term resp =? currentTerm s).
Proof.
  unfold processRequestVoteResponse.
  destruct (_ && _); [done|].
  by destruct (currentTerm s <? RequestVoteResponse.Term resp).
Qed.

Lemma runAsCandidate_loop_vote_response s (resp : RequestVoteResponse.t)
    evs votesGranted sent replies :
  state s = Candidate -> votesGranted <> QuorumSize s ->
  runAsCandidate_loop (EvVoteResponse resp :: evs) false votesGranted s
    sent replies
  = runAsCandidate_loop evs false
      (if (processRequestVoteResponse s resp).2
       then int64 (votesGranted + 1) else votesGranted)
      (processRequestVoteResponse s resp).1 sent replies.
Proof.
  intros Hst Hq. simpl. rewrite Hst. simpl. rewrite app_nil_r.
  destruct (votesGranted =? QuorumSize s) eqn:Eq; [lia|].
  by destruct (processRequestVoteResponse s resp).
Qed.

(** C8: a vote response is counted exactly when it grants the vote and
    carries the candidate's current term, and then the server is left as
    it was; a response of a higher term makes the node adopt that term
    and become a follower, whether it grants the vote or not (and it is
    not counted).  In the candidate loop the tally goes up by one for a
    counted response and stays as it was for any other. *)
Theorem processRequestVoteResponse_counts s (resp : RequestVoteResponse.t) :
  ((processRequestVoteResponse s resp).2 = true <->
     RequestVoteResponse.VoteGranted resp = true /\
     RequestVoteResponse.Term resp = currentTerm s) /\
  ((processRequestVoteResponse s resp).2 = true ->
     (processRequestVoteResponse s resp).1 = s) /\
  (currentTerm s < RequestVoteResponse.Term resp ->
     (processRequestVoteResponse s resp).2 = false /\
     currentTerm (processRequestVoteResponse s resp).1
     = RequestVoteResponse.Term resp /\
     state (processRequestVoteResponse s resp).1 = Follower) /\
  (forall evs votesGranted sent replies,
      state s = Candidate -> votesGranted <> QuorumSize s ->
      runAsCandidate_loop (EvVoteResponse resp :: evs) false votesGranted s
        sent replies
      = runAsCandidate_loop evs false
          (if RequestVoteResponse.VoteGranted resp
              && (RequestVoteResponse.Term resp =? currentTerm s)
           then int64 (votesGranted + 1) else votesGranted)
          (processRequestVoteResponse s resp).1 sent replies).
Proof.
  split; [|split; [|split]].
  - by rewrite processRequestVoteResponse_snd, andb_true_iff, Z.eqb_eq.
  - unfold processRequestVoteResponse. destruct (_ && _); [done|].
    by destruct (currentTerm s <? RequestVoteResponse.Term resp).
  - intros Hlt. unfold processRequestVoteResponse.
    destruct (RequestVoteResponse.Term resp =? currentTerm s) eqn:Et; [lia|].
    rewrite andb_false_r.
    destruct (currentTerm s <? RequestVoteResponse.Term resp) eqn:Eh; [|lia].
    simpl. by rewrite setTerm_currentTerm.
  - intros evs votes sent replies Hst Hq.
    rewrite runAsCandidate_loop_vote_response by done.
    by rewrite processRequestVoteResponse_snd.
Qed.

(** *** One vote per term *)

Lemma processRequestVote_term_mono s (req : RequestVoteRequest.t) :
  currentTerm s <= currentTerm (processRequestVote s req).1.
Proof.
  unfold processRequestVote.
  destruct (RequestVoteRequest.Term req <? currentTerm s) eqn:E1; [done|].
  destruct (currentTerm s <? RequestVoteRequest.Term req) eqn:E2.
  - simpl. destruct (_ || _); simpl; rewrite setTerm_currentTerm; lia.
  - destruct (_ && _); simpl; [done|].
    destruct (_ || _); simpl; lia.
Qed.

(** What a granted vote leaves behind: the response carries the term the
    node ends in, and the vote is recorded for the candidate. *)
Lemma processRequestVote_granted s (req : RequestVoteRequest.t) :
  RequestVoteResponse.VoteGranted (processRequestVote s req).2 = true ->
  RequestVoteResponse.Term (processRequestVote s req).2
  = currentTerm (processRequestVote s req).1 /\
  votedFor (processRequestVote s req).1 = RequestVoteRequest.CandidateName req.
Proof.
  unfold processRequestVote.
  destruct (RequestVoteRequest.Term req <? currentTerm s) eqn:E1; [done|].
  destruct (currentTerm s <? RequestVoteRequest.Term req) eqn:E2.
  - simpl. by destruct (_ || _).
  - destruct (_ && _); simpl; [done|].
    by destruct (_ || _).
Qed.

(** A node that has voted for [A] in its current term grants nothing to
    anybody else as long as the term stays, and keeps the vote. *)
Lemma processRequestVote_same_term s (req : RequestVoteRequest.t) :
  votedFor s <> EmptyString ->
  currentTerm (processRequestVote s req).1 = currentTerm s ->
  votedFor (processRequestVote s req).1 = votedFor s /\
  (RequestVoteResponse.VoteGranted (processRequestVote s req).2 = true ->
   RequestVoteRequest.CandidateName req = votedFor s).
Proof.
  intros Hv. unfold processRequestVote.
  destruct (RequestVoteRequest.Term req <? currentTerm s) eqn:E1; [done|].
  destruct (currentTerm s <? RequestVoteRequest.Term req) eqn:E2.
  - simpl. destruct (_ || _); simpl; rewrite setTerm_currentTerm; lia.
  - rewrite (bool_decide_eq_false_2 _ Hv). simpl.
    destruct (bool_decide (votedFor s = RequestVoteRequest.CandidateName req))
      eqn:Ec; simpl; [|done].
    apply bool_decide_eq_true_1 in Ec.
    by destruct (_ || _).
Qed.

Lemma processRequestVotes_later (T : Z) (A : string)
    (reqs : list RequestVoteRequest.t) :
  A <> EmptyString ->
  forall s,
    T < currentTerm s \/ (currentTerm s = T /\ votedFor s = A) ->
    forall q r,
      (q, r) ∈ (processRequestVotes s reqs).1 ->
      RequestVoteResponse.VoteGranted r = true ->
      RequestVoteResponse.Term r = T ->
      RequestVoteRequest.CandidateName q = A.
Proof.
  intros HA. induction reqs as [|req reqs IH]; intros s Hinv q r; simpl.
  - by intros ?%elem_of_nil.
  - pose proof (processRequestVote_term_mono s req) as Hmono.
    pose proof (processRequestVote_granted s req) as Hgr.
    pose proof (processRequestVote_same_term s req) as Hsame.
    destruct (processRequestVote s req) as [s1 resp]; simpl in *.
    specialize (IH s1).
    destruct (processRequestVotes s1 reqs) as [tr s2]; simpl in *.
    intros Hin Hg HT. apply elem_of_cons in Hin as [[= -> ->] | Hin].
    + destruct (Hgr Hg) as [Ht Hv].
      destruct Hinv as [Hlt | [Heq HvA]]; [lia|].
      destruct Hsame as [_ Hc]; [congruence | lia |].
      rewrite (Hc Hg). done.
    + apply (IH ltac:(
        destruct Hinv as [Hlt | [Heq HvA]]; [left; lia|];
        destruct (Z.eq_dec (currentTerm s1) (currentTerm s)) as [E|E];
        [right; destruct Hsame as [Hk _]; [congruence | done | split; congruence]
        | left; lia]) q r Hin Hg HT).
Qed.

(** C2, as the code has it: over any run of vote requests handled one
    after the other, when a request of a candidate whose name is not the
    empty string is granted, no later request answered with the same
    term is granted to a candidate of another name. *)
Theorem processRequestVote_one_vote_per_term s
    (reqs : list RequestVoteRequest.t) (i j : nat)
    (qi qj : RequestVoteRequest.t) (ri rj : RequestVoteResponse.t) :
  (i < j)%nat ->
  (processRequestVotes s reqs).1 !! i = Some (qi, ri) ->
  (processRequestVotes s reqs).1 !! j = Some (qj, rj) ->
  RequestVoteResponse.VoteGranted ri = true ->
  RequestVoteResponse.VoteGranted rj = true ->
  RequestVoteResponse.Term ri = RequestVoteResponse.Term rj ->
  RequestVoteRequest.CandidateName qi <> EmptyString ->
  RequestVoteRequest.CandidateName qj = RequestVoteRequest.CandidateName qi.
Proof.
  revert s i j. induction reqs as [|req reqs IH]; intros s i j Hij; simpl.
  - by rewrite lookup_nil.
  - pose proof (processRequestVote_granted s req) as Hgr.
    destruct (processRequestVote s req) as [s1 resp]; simpl in *.
    pose proof (processRequestVotes_later (RequestVoteResponse.Term ri)
                  (RequestVoteRequest.CandidateName qi) reqs) as Hlater.
    specialize (IH s1).
    destruct (processRequestVotes s1 reqs) as [tr s2] eqn:Etr; simpl in *.
    destruct i as [|i]; destruct j as [|j]; try lia; simpl.
    + intros [= -> ->] Hj Hgi Hgj HT HA.
      destruct (Hgr Hgi) as [Ht Hv].
      apply (Hlater HA s1 ltac:(right; split; congruence) qj rj);
        [| done | congruence].
      rewrite Etr. simpl. by eapply list_elem_of_lookup_2.
    + intros Hi Hj. apply (IH i j); [lia | done | done].
Qed.

End VoteFacts.

(** C2 fails as stated: a node that grants its vote to a candidate whose
    name is the empty string records the very value that stands for no
    vote, and grants the vote of the same term again to the next
    candidate. *)
Lemma processRequestVote_two_votes_one_term :
  (processRequestVotes (node "n1" (store_of []))
     [RequestVoteRequest.mk 1 EmptyString 1 0;
      RequestVoteRequest.mk 1 "n3" 1 0]).1
  = [(RequestVoteRequest.mk 1 EmptyString 1 0, RequestVoteResponse.mk 1 true);
     (RequestVoteRequest.mk 1 "n3" 1 0, RequestVoteResponse.mk 1 true)] /\
  EmptyString <> "n3".
Proof. split; [vm_compute; reflexivity | discriminate]. Qed.

Lemma processRequestVote_one_vote_per_term_witness :
  RequestVoteRequest.CandidateName (RequestVoteRequest.mk 1 "n2" 1 0)
  = RequestVoteRequest.CandidateName (RequestVoteRequest.mk 1 "n2" 1 0).
Proof.
  apply (processRequestVote_one_vote_per_term (node "n1" (store_of []))
           [RequestVoteRequest.mk 1 "n2" 1 0; RequestVoteRequest.mk 1 "n2" 1 0]
           0 1 _ _ (RequestVoteResponse.mk 1 true)
           (RequestVoteResponse.mk 1 true));
    try (vm_compute; reflexivity); try lia; discriminate.
Defined.

(** A second request of another candidate in the same term is refused. *)
Example processRequestVote_second_candidate_refused :
  (processRequestVotes (node "n1" (store_of []))
     [RequestVoteRequest.mk 1 "n2" 1 0; RequestVoteRequest.mk 1 "n3" 1 0]).1
  = [(RequestVoteRequest.mk 1 "n2" 1 0, RequestVoteResponse.mk 1 true);
     (RequestVoteRequest.mk 1 "n3" 1 0, RequestVoteResponse.mk 1 false)].
Proof. vm_compute. reflexivity. Qed.

Lemma processRequestVoteResponse_counts_witness :
  (processRequestVoteResponse candidate_4 (RequestVoteResponse.mk 5 true)).2
  = false /\
  currentTerm
    (processRequestVoteResponse candidate_4 (RequestVoteResponse.mk 5 true)).1
  = 5 /\
  state
    (processRequestVoteResponse candidate_4 (RequestVoteResponse.mk 5 true)).1
  = Follower.
Proof.
  apply (processRequestVoteResponse_counts candidate_4
           (RequestVoteResponse.mk 5 true)).
  vm_compute. reflexivity.
Defined.

(** ** Proposals *)

Section DispatchFacts.
Context {St : Type} {LS : LogStore St}.
Implicit Types (s : Server St).

(** C9: the entry is given the index [lastLogIndex + 1] (in [uint64]
    arithmetic), the term [currentTerm], the quorum size as
    [majorityQuorum] and the count 0, and handed to [SetLog].  When
    [SetLog] fails the server is left as it was, markers and in-flight
    map included, and nobody is notified; when it returns, the markers
    are [(lastLogIndex + 1, currentTerm)], the entry is in the in-flight
    map under its index, and every follower record is notified. *)
Theorem dispatchLog_stamps_and_persists s (applyLog : Log.t) :
  let entry := stamp s applyLog in
  (Log.Index entry = u64 (lastLogIndex s + 1) /\
   (lastLogIndex s + 1 < 2 ^ 64 -> 0 <= lastLogIndex s ->
    Log.Index entry = lastLogIndex s + 1) /\
   Log.Term entry = currentTerm s /\
   Log.majorityQuorum entry = QuorumSize s /\
   Log.count entry = 0 /\
   Log.Command entry = Log.Command applyLog) /\
  (forall err,
      SetLog (logs s) entry = Fails err ->
      dispatchLog s applyLog = Some (s, entry, ∅)) /\
  (forall l,
      SetLog (logs s) entry = Returns l ->
      exists s',
        dispatchLog s applyLog = Some (s', entry, dom (followers s)) /\
        logs s' = l /\
        lastLogIndex s' = u64 (lastLogIndex s + 1) /\
        lastLogTerm s' = currentTerm s /\
        applying s' = <[Log.Index entry := entry]> (applying s) /\
        currentTerm s' = currentTerm s /\ state s' = state s /\
        commitIndex s' = commitIndex s).
Proof.
  intros entry. split; [|split].
  - repeat split; try reflexivity.
    intros Hlt Hge. subst entry. simpl. unfold u64.
    apply Z.mod_small. lia.
  - intros err Herr. unfold dispatchLog. fold entry. by rewrite Herr.
  - intros l Hl. unfold dispatchLog. fold entry. rewrite Hl.
    eexists. split; [reflexivity|]. by repeat split.
Qed.

End DispatchFacts.

(** ** The candidate loop *)

Section CandidateFacts.
Context {St : Type} {LS : LogStore St}.
Implicit Types (s : Server St).

Lemma broadcastVoteRequests_carries_1_0 s :
  Forall carries_1_0 (broadcastVoteRequests s).
Proof.
  unfold broadcastVoteRequests. apply Forall_forall.
  intros [p q] Hin. apply list_elem_of_fmap in Hin as (peer & [= -> ->] & _).
  by split.
Qed.

Lemma candidatePrologue_carries_1_0 doVote votesGranted s :
  Forall carries_1_0 (candidatePrologue doVote votesGranted s).2.
Proof.
  unfold candidatePrologue. destruct doVote; simpl.
  - apply broadcastVoteRequests_carries_1_0.
  - constructor.
Qed.

(** A run only adds to what was sent before it, and what it adds is
    built with the constants. *)
Lemma runAsCandidate_loop_sent evs :
  forall doVote votesGranted s sent replies,
    exists more,
      run_sent (runAsCandidate_loop evs doVote votesGranted s sent replies)
      = sent ++ more /\
      Forall carries_1_0 more.
Proof.
  induction evs as [|ev evs IH]; intros doVote votes s sent replies;
    simpl;
    (destruct (bool_decide (state s = Candidate)); simpl;
     [| exists []; by rewrite app_nil_r]);
    pose proof (candidatePrologue_carries_1_0 doVote votes s) as Hout;
    destruct (candidatePrologue doVote votes s) as [[s1 votes1] out];
    simpl in Hout;
    (destruct (votes1 =? QuorumSize s1); [by exists out|]).
  - by exists out.
  - destruct ev as [|resp|cmd|].
    + by exists out.
    + destruct (processRequestVoteResponse s1 resp) as [s2 success].
      destruct (IH false (if success then int64 (votes1 + 1) else votes1) s2
                  (sent ++ out) replies) as (more & -> & Hmore).
      exists (out ++ more). split; [by rewrite app_assoc|].
      by apply Forall_app.
    + destruct (processRPC s1 cmd) as [[s2 reply]|]; [|by exists out].
      destruct (IH false votes1 s2 (sent ++ out) (replies ++ [reply]))
        as (more & -> & Hmore).
      exists (out ++ more). split; [by rewrite app_assoc|].
      by apply Forall_app.
    + destruct (IH true votes1 s1 (sent ++ out) replies) as (more & -> & Hmore).
      exists (out ++ more). split; [by rewrite app_assoc|].
      by apply Forall_app.
Qed.

Lemma startVoteRound_state s : state (startVoteRound s) = state s.
Proof. reflexivity. Qed.

(** A round that is due is run at the head of the iteration. *)
Lemma runAsCandidate_loop_round evs votesGranted s sent replies :
  state s = Candidate ->
  runAsCandidate_loop evs true votesGranted s sent replies
  = runAsCandidate_loop evs false 1 (startVoteRound s)
      (sent ++ broadcastVoteRequests (startVoteRound s)) replies.
Proof.
  intros Hst.
  destruct evs as [|ev evs]; simpl; rewrite Hst; simpl;
    by rewrite app_nil_r.
Qed.




(** The up-to-date check of [processRequestVote] for a request built
    with the constants: the vote is granted exactly when the request
    passes the term and the vote checks and the receiver's own last
    index is at most 1 and its last term at most 0. *)
Lemma processRequestVote_against_1_0 s (req : RequestVoteRequest.t) :
  RequestVoteRequest.LastLogIndex req = 1 ->
  RequestVoteRequest.LastLogTerm req = 0 ->
  (RequestVoteResponse.VoteGranted (processRequestVote s req).2 = true <->
     currentTerm s <= RequestVoteRequest.Term req /\
     (currentTerm s < RequestVoteRequest.Term req \/
      votedFor s = EmptyString \/
      votedFor s = RequestVoteRequest.CandidateName req) /\
     lastLogIndex s <= 1 /\ lastLogTerm s <= 0).
Proof.
  intros Hi Ht. unfold processRequestVote. rewrite Hi, Ht.
  destruct (RequestVoteRequest.Term req <? currentTerm s) eqn:E1;
    [simpl; split; [done | lia]|].
  destruct (currentTerm s <? RequestVoteRequest.Term req) eqn:E2.
  - destruct (setTerm_markers (RequestVoteRequest.Term req) s)
      as (Hli & Hlt & _).
    unfold LastLog. rewrite Hli, Hlt.
    destruct (1 <? lastLogIndex s) eqn:E3;
      destruct (0 <? lastLogTerm s) eqn:E4; simpl;
      (split; [intros ?; (done || lia) | intros ?; (done || lia)]).
  - destruct (bool_decide (votedFor s = EmptyString)) eqn:Ev;
      destruct (bool_decide
                  (votedFor s = RequestVoteRequest.CandidateName req)) eqn:Ec;
      simpl;
      try apply bool_decide_eq_true_1 in Ev;
      try apply bool_decide_eq_false_1 in Ev;
      try apply bool_decide_eq_true_1 in Ec;
      try apply bool_decide_eq_false_1 in Ec;
      try (split; [done | intros (_ & [?|[?|?]] & _); (done || lia)]);
      (destruct (1 <? lastLogIndex s) eqn:E3;
       destruct (0 <? lastLogTerm s) eqn:E4; simpl;
       (split; [intros ?; (done || (repeat split; (lia || auto)))
               | intros ?; (done || lia)])).
Qed.

(** C10: whatever the candidate's log and whatever the events, every
    vote request a run of the candidate loop sends carries
    [LastLogIndex = 1] and [LastLogTerm = 0]; the first round sends such
    a request to every peer; and a receiver grants such a request
    exactly when it passes the term and the vote checks and the
    receiver's own last index is at most 1 and its last term at most
    0. *)
Theorem runAsCandidate_requests_carry_1_0 s evs :
  Forall carries_1_0 (run_sent (runAsCandidate s evs)) /\
  (state s = Candidate ->
   forall peer, peer ∈ peers s ->
     (peer, RequestVoteRequest.mk (u64 (currentTerm s + 1)) (localAddress s)
              1 0) ∈ run_sent (runAsCandidate s evs)) /\
  (forall out (receiver : Server St),
      out ∈ run_sent (runAsCandidate s evs) ->
      (RequestVoteResponse.VoteGranted (processRequestVote receiver out.2).2
       = true <->
         currentTerm receiver <= RequestVoteRequest.Term out.2 /\
         (currentTerm receiver < RequestVoteRequest.Term out.2 \/
          votedFor receiver = EmptyString \/
          votedFor receiver = RequestVoteRequest.CandidateName out.2) /\
         lastLogIndex receiver <= 1 /\ lastLogTerm receiver <= 0)).
Proof.
  assert (Forall carries_1_0 (run_sent (runAsCandidate s evs))) as Hall.
  { unfold runAsCandidate.
    destruct (runAsCandidate_loop_sent evs true 0 s [] []) as (more & -> & H).
    done. }
  split; [done|]. split.
  - intros Hst peer Hin. unfold runAsCandidate.
    rewrite runAsCandidate_loop_round by done.
    destruct (runAsCandidate_loop_sent evs false 1 (startVoteRound s)
                ([] ++ broadcastVoteRequests (startVoteRound s)) [])
      as (more & -> & _).
    apply elem_of_app. left. simpl.
    unfold broadcastVoteRequests. apply list_elem_of_fmap.
    exists peer. by split.
  - intros out receiver Hin.
    rewrite Forall_forall in Hall. destruct (Hall out Hin) as [Hi Ht].
    by apply processRequestVote_against_1_0.
Qed.

End CandidateFacts.


(** The spec's scenario of a three-node cluster: the candidate of term 1
    is Leader after the first granted vote, the quorum being 2, and the
    second response is not read. *)
Example runAsCandidate_three_nodes :
  runAsCandidate candidate_0
    [EvVoteResponse (RequestVoteResponse.mk 1 true);
     EvVoteResponse (RequestVoteResponse.mk 1 true)]
  = mkCandidateRun
      (mkServer "n1" ["n2"; "n3"] Leader 1 "n1" EmptyString 0 0 0
         (store_of []) ∅ ∅)
      2
      [("n2", RequestVoteRequest.mk 1 "n1" 1 0);
       ("n3", RequestVoteRequest.mk 1 "n1" 1 0)]
      []
      [EvVoteResponse (RequestVoteResponse.mk 1 true)]
      Returned.
Proof. vm_compute. reflexivity. Qed.

Lemma runAsCandidate_requests_carry_1_0_witness :
  ("n3", RequestVoteRequest.mk 1 "n1" 1 0)
    ∈ run_sent (runAsCandidate candidate_0 [EvElectionTimeout]).
Proof.
  apply (runAsCandidate_requests_carry_1_0 candidate_0 [EvElectionTimeout]).
  - reflexivity.
  - right. left.
Defined.

(** Two rounds of a candidate of a three-node cluster: four requests,
    all with the last index 1 and the last term 0, while its own markers
    are at zero. *)
Example runAsCandidate_two_rounds :
  run_sent (runAsCandidate candidate_0 [EvElectionTimeout])
  = [("n2", RequestVoteRequest.mk 1 "n1" 1 0);
     ("n3", RequestVoteRequest.mk 1 "n1" 1 0);
     ("n2", RequestVoteRequest.mk 2 "n1" 1 0);
     ("n3", RequestVoteRequest.mk 2 "n1" 1 0)].
Proof. vm_compute. reflexivity. Qed.

Lemma dispatchLog_stamps_and_persists_witness :
  dispatchLog leader_stale proposal
  = Some (leader_stale, stamp leader_stale proposal, ∅) /\
  exists s',
    dispatchLog leader_2 proposal
    = Some (s', stamp leader_2 proposal, dom (followers leader_2)) /\
    logs s' = InmemLogStore.mk [Log.mk 1 2 "x=1" 2 0] /\
    lastLogIndex s' = 1 /\
    lastLogTerm s' = 2 /\
    applying s' = <[1 := Log.mk 1 2 "x=1" 2 0]> ∅ /\
    currentTerm s' = 2 /\ state s' = Leader /\ commitIndex s' = 0.
Proof.
  split.
  - apply (dispatchLog_stamps_and_persists leader_stale proposal)
      with (err := ErrorNew "log index is not contiguous").
    reflexivity.
  - apply (dispatchLog_stamps_and_persists leader_2 proposal).
    reflexivity.
Defined.

(** * Further properties of the log store *)

Section InmemLogStoreMore.
Import InmemLogStore.

Lemma GetLog_range_app (es1 es2 : list Log.t) (idx : Z) :
  GetLog_range (es1 ++ es2) idx
  = match GetLog_range es1 idx with
    | Returns x => Returns x
    | Fails _ => GetLog_range es2 idx
    | Panics => Panics
    end.
Proof.
  induction es1 as [|x es1 IH]; simpl; [done|].
  by destruct (Log.Index x =? idx).
Qed.

Lemma GetLog_range_split (es : list Log.t) (idx : Z) (e : Log.t) :
  GetLog_range es idx = Returns e <->
  exists pre post,
    es = pre ++ e :: post /\ Log.Index e = idx /\
    Forall (fun x => Log.Index x <> idx) pre.
Proof.
  split.
  - induction es as [|x es IH]; simpl; [done|].
    destruct (Log.Index x =? idx) eqn:E.
    + intros [= ->]. exists [], es. split; [done|]. split; [lia | constructor].
    + intros H. destruct (IH H) as (pre & post & -> & Hi & Hpre).
      exists (x :: pre), post. split; [done|]. split; [done|].
      constructor; [lia | done].
  - intros (pre & post & -> & Hi & Hpre).
    induction Hpre as [|x pre Hx Hpre IH]; simpl.
    + by rewrite (proj2 (Z.eqb_eq _ _) Hi).
    + by rewrite (proj2 (Z.eqb_neq _ _) Hx).
Qed.

Lemma GetLog_range_Fails_iff (es : list Log.t) (idx : Z) :
  (exists err, GetLog_range es idx = Fails err) <->
  Forall (fun x => Log.Index x <> idx) es.
Proof.
  split.
  - intros [err H]. by eapply GetLog_range_Fails.
  - intros H. induction H as [|x es Hx Hes IH]; simpl; [by eexists|].
    by rewrite (proj2 (Z.eqb_neq _ _) Hx).
Qed.

End InmemLogStoreMore.

(** X1: [GetLog] returns the first entry, in the order of the store,
    whose [Index] is the one asked for; it fails exactly when no entry has
    that index, and it never panics. *)
Theorem GetLog_first_match (i : InmemLogStore.t) (idx : Z) :
  (forall e : Log.t,
      GetLog i idx = Returns e <->
      exists pre post,
        InmemLogStore.entries i = pre ++ e :: post /\ Log.Index e = idx /\
        Forall (fun x => Log.Index x <> idx) pre) /\
  ((exists err, GetLog i idx = Fails err) <->
     Forall (fun x => Log.Index x <> idx) (InmemLogStore.entries i)) /\
  GetLog i idx <> Panics.
Proof.
  split; [|split].
  - intros e. apply GetLog_range_split.
  - apply GetLog_range_Fails_iff.
  - apply GetLog_range_not_Panics.
Qed.

(** X2: after [SetLog] of an entry, [GetLog] of an index that was found
    before still returns the entry it returned before, also when the new
    entry has that index (the new entry is shadowed); an index that was
    not found returns the new entry when it is the new entry's index and
    fails as before otherwise. *)
Theorem GetLog_after_SetLog (i : InmemLogStore.t) (entry : Log.t) (idx : Z) :
  obind (SetLog i entry) (fun i' => GetLog i' idx)
  = match GetLog i idx with
    | Returns e => Returns e
    | Fails err => if Log.Index entry =? idx then Returns entry else Fails err
    | Panics => Panics
    end.
Proof.
  simpl. unfold InmemLogStore.GetLog. simpl. rewrite GetLog_range_app.
  destruct (InmemLogStore.GetLog_range (InmemLogStore.entries i) idx)
    as [e|err|] eqn:E; [done| |done].
  simpl. destruct (Log.Index entry =? idx); [done|].
  (* the error of the lookup names the index only *)
  clear -E. induction (InmemLogStore.entries i) as [|x es IH]; simpl in E.
  - by injection E as <-.
  - destruct (Log.Index x =? idx); [done | auto].
Qed.

(** X3: after [SetLog] the last index is the index of the new entry, and
    after [SetLogs] of a batch that of the last entry of the batch,
    whatever the store held; an empty batch leaves the last index as it
    was.  The first index after [SetLog] is the one the store had, or
    the new entry's when the store was empty (where [FirstIndex] alone
    panics). *)
Theorem LastIndex_FirstIndex_after_SetLog (i : InmemLogStore.t) :
  (forall entry : Log.t,
      obind (SetLog i entry) LastIndex = Returns (Log.Index entry)) /\
  (forall (es : list Log.t) (entry : Log.t),
      obind (SetLogs i (es ++ [entry])) LastIndex = Returns (Log.Index entry)) /\
  obind (SetLogs i []) LastIndex = LastIndex i /\
  (forall entry : Log.t,
      obind (SetLog i entry) FirstIndex
      = match InmemLogStore.entries i with
        | [] => Returns (Log.Index entry)
        | first :: _ => Returns (Log.Index first)
        end).
Proof.
  assert (forall (l : list Log.t) (e : Log.t),
             InmemLogStore.LastIndex (InmemLogStore.mk (l ++ [e]))
             = Returns (Log.Index e)) as Hlast.
  { intros l e. unfold InmemLogStore.LastIndex. simpl.
    rewrite length_app. simpl.
    destruct (0 <? length l + 1)%nat eqn:E; [|apply Nat.ltb_ge in E; lia].
    replace (length l + 1 - 1)%nat with (length l) by lia.
    by rewrite list_lookup_middle. }
  split; [|split; [|split]].
  - intros entry. simpl. apply Hlast.
  - intros es entry. simpl. unfold InmemLogStore.SetLogs. simpl.
    rewrite SetLogs_fold, app_assoc. apply Hlast.
  - simpl. by destruct i.
  - intros entry. simpl. unfold InmemLogStore.FirstIndex. simpl.
    by destruct (InmemLogStore.entries i).
Qed.

Section DeleteRangeMore.
Import InmemLogStore.

Lemma DeleteRange_loop_no_match (n : nat) :
  forall (j : Z) (es : list Log.t),
    Forall (fun e => ~ (j <= Log.Index e < j + Z.of_nat n)) es ->
    DeleteRange_loop n j es = Returns es.
Proof.
  induction n as [|n IH]; intros j es Hno; simpl; [done|].
  rewrite DeleteRange_scan_skip; cycle 1.
  { intros i e _ He. apply list_elem_of_lookup_2 in He.
    rewrite Forall_forall in Hno. specialize (Hno e He). lia. }
  { simpl. lia. }
  rewrite firstn_all. apply IH.
  eapply Forall_impl; [exact Hno|]. simpl. intros e He. lia.
Qed.

(** What a cut leaves of the slice is the slice without one cell. *)
Lemma remove_at_visible (j : Z) (arr arr' : list Log.t) (len len' : nat) :
  0 <= j -> (len <= length arr)%nat ->
  remove_at j arr len = Some (arr', len') ->
  take len' arr' = delete (Z.to_nat j) (take len arr).
Proof.
  intros Hj Hlen. unfold remove_at.
  destruct (j + 1 <=? Z.of_nat len) eqn:E; [|done].
  intros [= <- <-]. set (p := Z.to_nat j).
  assert (p + 1 <= len)%nat as Hp by (subst p; lia).
  rewrite delete_take_drop, take_take.
  replace (p `min` len)%nat with p by lia.
  rewrite app_assoc, take_drop_commute.
  replace (S p + (len - p - 1))%nat with len by lia.
  apply take_app_length'.
  rewrite length_app, length_take, length_drop, length_take. lia.
Qed.

Lemma DeleteRange_scan_sublist (j : Z) (n : nat) :
  forall (k : nat) (arr arr' : list Log.t) (len len' : nat),
    0 <= j -> (len <= length arr)%nat ->
    DeleteRange_scan j k n arr len = Some (arr', len') ->
    take len' arr' `sublist_of` take len arr /\ (len' <= length arr')%nat.
Proof.
  induction n as [|n IH]; intros k arr arr' len len' Hj Hlen; simpl.
  - by intros [= <- <-].
  - destruct (arr !! k) as [e|]; [|done].
    destruct (Log.Index e =? j).
    + destruct (remove_at j arr len) as [[arr1 len1]|] eqn:Er; [|done].
      destruct (remove_at_length _ _ _ _ _ Hj Hlen Er) as [_ Hl1].
      pose proof (remove_at_visible _ _ _ _ _ Hj Hlen Er) as Hvis.
      intros H. destruct (IH _ _ _ _ _ Hj Hl1 H) as [Hsub Hl'].
      split; [|done]. etrans; [exact Hsub|].
      rewrite Hvis. apply sublist_delete.
    + by apply IH.
Qed.

Lemma DeleteRange_loop_sublist (n : nat) :
  forall (j : Z) (es es' : list Log.t),
    0 <= j -> DeleteRange_loop n j es = Returns es' -> es' `sublist_of` es.
Proof.
  induction n as [|n IH]; intros j es es' Hj; simpl.
  - by intros [= <-].
  - destruct (DeleteRange_scan j 0 (length es) es (length es))
      as [[arr len]|] eqn:Es; [|done].
    destruct (DeleteRange_scan_sublist _ _ _ _ _ _ _ Hj (Nat.le_refl _) Es)
      as [Hsub _].
    rewrite firstn_all in Hsub.
    intros H. etrans; [|exact Hsub]. apply (IH (j + 1)); [lia | done].
Qed.

Lemma DeleteRange_loop_not_Fails (n : nat) :
  forall (j : Z) (es : list Log.t) (err : error),
    DeleteRange_loop n j es <> Fails err.
Proof.
  induction n as [|n IH]; intros j es err; simpl; [done|].
  destruct (DeleteRange_scan j 0 (length es) es (length es)) as [[arr len]|];
    [apply IH | done].
Qed.

End DeleteRangeMore.

(** X4: [DeleteRange] leaves the store as it is, and does not panic, when
    no entry has an index in [min, max): in particular on the empty store
    and for every range with [max <= min]. *)
Theorem DeleteRange_nothing_in_range (i : InmemLogStore.t) (min max : Z) :
  Forall (fun e => ~ (min <= Log.Index e < max)) (InmemLogStore.entries i) ->
  DeleteRange i min max = Returns i.
Proof.
  intros Hno. simpl. unfold InmemLogStore.DeleteRange.
  rewrite DeleteRange_loop_no_match; [by destruct i|].
  eapply Forall_impl; [exact Hno|]. simpl. intros e He. lia.
Qed.

Lemma DeleteRange_nothing_in_range_witness :
  DeleteRange (store_of [1; 2; 3]) 4 9 = Returns (store_of [1; 2; 3]).
Proof.
  apply (DeleteRange_nothing_in_range (store_of [1; 2; 3]) 4 9).
  repeat constructor; simpl; lia.
Defined.

(** X5: [DeleteRange] never returns an error, and when it returns it has
    only removed entries: what is left is a subsequence of what the store
    held, in the same order, with nothing added or changed. *)
Theorem DeleteRange_only_removes (i : InmemLogStore.t) (min max : Z) :
  0 <= min ->
  (forall err, DeleteRange i min max <> Fails err) /\
  (forall i',
      DeleteRange i min max = Returns i' ->
      InmemLogStore.entries i' `sublist_of` InmemLogStore.entries i).
Proof.
  intros Hmin. simpl. unfold InmemLogStore.DeleteRange. split.
  - intros err.
    pose proof (DeleteRange_loop_not_Fails (Z.to_nat (max - min)) min
                  (InmemLogStore.entries i) err).
    unfold omap, obind.
    destruct (InmemLogStore.DeleteRange_loop _ _ _); congruence.
  - intros i'. unfold omap, obind.
    destruct (InmemLogStore.DeleteRange_loop _ _ _) as [es'| |] eqn:E;
      [|done|done].
    intros [= <-]. simpl. by eapply DeleteRange_loop_sublist.
Qed.

Lemma DeleteRange_only_removes_witness :
  InmemLogStore.entries (store_of [1; 2])
    `sublist_of` InmemLogStore.entries (store_of [1; 2; 3]).
Proof.
  apply (DeleteRange_only_removes (store_of [1; 2; 3]) 2 3); [lia|].
  vm_compute. reflexivity.
Defined.

Lemma store_of_contiguous_3 :
  contiguous (InmemLogStore.entries (store_of [1; 2; 3])).
Proof.
  intros i e. destruct i as [|[|[|i]]]; simpl; intros [= <-]; reflexivity.
Defined.

(** X6: on a log whose entries carry the indices 1, 2, ..., n in order,
    [DeleteRange(j, j+1)] with [j] below [n] removes the entry of index
    [j + 1] and keeps the entry of index [j], and [DeleteRange(n, n+1)]
    panics on its slice bounds. *)
Theorem DeleteRange_contiguous_cuts_next (es : list Log.t) :
  contiguous es ->
  (forall j : Z,
      1 <= j < Z.of_nat (length es) ->
      DeleteRange (InmemLogStore.mk es) j (j + 1)
      = Returns (InmemLogStore.mk
                   (take (Z.to_nat j) es ++ drop (S (Z.to_nat j)) es))) /\
  (es <> [] ->
   DeleteRange (InmemLogStore.mk es) (Z.of_nat (length es))
     (Z.of_nat (length es) + 1)
   = Panics).
Proof.
  intros Hc. split.
  - intros j Hj. by apply DeleteRange_one_contiguous.
  - intros Hne. by apply DeleteRange_last_contiguous.
Qed.

Lemma DeleteRange_contiguous_cuts_next_witness :
  DeleteRange (store_of [1; 2; 3]) 2 (2 + 1) = Returns (store_of [1; 2]).
Proof.
  apply (DeleteRange_contiguous_cuts_next
           (InmemLogStore.entries (store_of [1; 2; 3]))).
  - exact store_of_contiguous_3.
  - simpl. lia.
Defined.

(** * Further properties of the RPC handlers *)

Section HandlerMore.
Context {St : Type} {LS : LogStore St}.
Implicit Types (s : Server St).

Lemma setTerm_frame t s :
  localAddress (setTerm t s) = localAddress s /\
  peers (setTerm t s) = peers s /\
  leader (setTerm t s) = leader s /\
  applying (setTerm t s) = applying s /\
  followers (setTerm t s) = followers s.
Proof. unfold setTerm. by destruct (currentTerm s <? t). Qed.

Lemma processRequestVote_writes s (req : RequestVoteRequest.t) :
  let s' := (processRequestVote s req).1 in
  let resp := (processRequestVote s req).2 in
  (state s' = state s /\ leader s' = leader s /\
   commitIndex s' = commitIndex s /\ LastLog s' = LastLog s /\
   logs s' = logs s /\ applying s' = applying s /\
   followers s' = followers s /\ peers s' = peers s /\
   localAddress s' = localAddress s) /\
  currentTerm s' = Z.max (currentTerm s) (RequestVoteRequest.Term req) /\
  RequestVoteResponse.Term resp = currentTerm s'.
Proof.
  unfold processRequestVote, LastLog.
  destruct (RequestVoteRequest.Term req <? currentTerm s) eqn:E1;
    [simpl; repeat split; lia|].
  destruct (currentTerm s <? RequestVoteRequest.Term req) eqn:E2.
  - destruct (setTerm_markers (RequestVoteRequest.Term req) s)
      as (Hi & Ht & Hc & Hl).
    destruct (setTerm_frame (RequestVoteRequest.Term req) s)
      as (Ha & Hp & Hld & Hap & Hf).
    pose proof (setTerm_state (RequestVoteRequest.Term req) s) as Hst.
    pose proof (setTerm_currentTerm (RequestVoteRequest.Term req) s) as Hct.
    simpl. destruct (_ || _); simpl;
      rewrite ?Hi, ?Ht, ?Hc, ?Hl, ?Ha, ?Hp, ?Hld, ?Hap, ?Hf, ?Hst, ?Hct;
      repeat split; lia.
  - destruct (_ && _); simpl; [repeat split; lia|].
    destruct (_ || _); simpl; repeat split; lia.
Qed.

(** X7: [processRequestVote] writes the term and the vote only: the
    state, the leader, the commit index, the last-log markers, the log
    store, the in-flight map and the follower records are what they were.
    The term afterwards is the larger of the node's and the request's, so
    it never goes down, and the response carries that term. *)
Theorem processRequestVote_frame s (req : RequestVoteRequest.t) :
  let s' := (processRequestVote s req).1 in
  let resp := (processRequestVote s req).2 in
  (state s' = state s /\ leader s' = leader s /\
   commitIndex s' = commitIndex s /\ LastLog s' = LastLog s /\
   logs s' = logs s /\ applying s' = applying s /\
   followers s' = followers s /\ peers s' = peers s /\
   localAddress s' = localAddress s) /\
  currentTerm s' = Z.max (currentTerm s) (RequestVoteRequest.Term req) /\
  RequestVoteResponse.Term resp = currentTerm s'.
Proof. exact (processRequestVote_writes s req). Qed.

Lemma processRequestVote_grants s (req : RequestVoteRequest.t) :
  (RequestVoteResponse.VoteGranted (processRequestVote s req).2 = true <->
     currentTerm s <= RequestVoteRequest.Term req /\
     (currentTerm s < RequestVoteRequest.Term req \/
      votedFor s = EmptyString \/
      votedFor s = RequestVoteRequest.CandidateName req) /\
     lastLogIndex s <= RequestVoteRequest.LastLogIndex req /\
     lastLogTerm s <= RequestVoteRequest.LastLogTerm req) /\
  (RequestVoteResponse.VoteGranted (processRequestVote s req).2 = true ->
     votedFor (processRequestVote s req).1
     = RequestVoteRequest.CandidateName req).
Proof.
  split; [|by intros H; apply processRequestVote_granted].
  unfold processRequestVote.
  destruct (RequestVoteRequest.Term req <? currentTerm s) eqn:E1;
    [simpl; split; [done | lia]|].
  destruct (currentTerm s <? RequestVoteRequest.Term req) eqn:E2.
  - destruct (setTerm_markers (RequestVoteRequest.Term req) s)
      as (Hli & Hlt & _).
    unfold LastLog. rewrite Hli, Hlt.
    destruct (RequestVoteRequest.LastLogIndex req <? lastLogIndex s) eqn:E3;
      destruct (RequestVoteRequest.LastLogTerm req <? lastLogTerm s) eqn:E4;
      simpl; (split; [intros ?; (done || lia) | intros ?; (done || lia)]).
  - destruct (bool_decide (votedFor s = EmptyString)) eqn:Ev;
      destruct (bool_decide
                  (votedFor s = RequestVoteRequest.CandidateName req)) eqn:Ec;
      simpl;
      try apply bool_decide_eq_true_1 in Ev;
      try apply bool_decide_eq_false_1 in Ev;
      try apply bool_decide_eq_true_1 in Ec;
      try apply bool_decide_eq_false_1 in Ec;
      try (split; [done | intros (_ & [?|[?|?]] & _); (done || lia)]);
      (destruct (RequestVoteRequest.LastLogIndex req <? lastLogIndex s) eqn:E3;
       destruct (RequestVoteRequest.LastLogTerm req <? lastLogTerm s) eqn:E4;
       simpl;
       (split; [intros ?; (done || (repeat split; (lia || auto)))
               | intros ?; (done || lia)])).
Qed.

(** X8: [processRequestVote] grants the vote exactly when the request's
    term is not behind the node's, the node has not voted for somebody
    else in that term (its term is older, its vote is free, or its vote
    is for this candidate), and neither the node's last index is above
    the request's nor the node's last term above the request's; and a
    granted vote is recorded for the candidate. *)
Theorem processRequestVote_grants_iff s (req : RequestVoteRequest.t) :
  (RequestVoteResponse.VoteGranted (processRequestVote s req).2 = true <->
     currentTerm s <= RequestVoteRequest.Term req /\
     (currentTerm s < RequestVoteRequest.Term req \/
      votedFor s = EmptyString \/
      votedFor s = RequestVoteRequest.CandidateName req) /\
     lastLogIndex s <= RequestVoteRequest.LastLogIndex req /\
     lastLogTerm s <= RequestVoteRequest.LastLogTerm req) /\
  (RequestVoteResponse.VoteGranted (processRequestVote s req).2 = true ->
     votedFor (processRequestVote s req).1
     = RequestVoteRequest.CandidateName req).
Proof. exact (processRequestVote_grants s req). Qed.

Lemma setVotedFor_same s : setVotedFor (votedFor s) s = s.
Proof. by destruct s. Qed.

(** X9: a vote request that was granted is granted again when it comes
    a second time, and the second call leaves the server as the first one
    left it. *)
Theorem processRequestVote_granted_again s (req : RequestVoteRequest.t) :
  RequestVoteResponse.VoteGranted (processRequestVote s req).2 = true ->
  processRequestVote (processRequestVote s req).1 req
  = ((processRequestVote s req).1,
     RequestVoteResponse.mk (RequestVoteRequest.Term req) true).
Proof.
  intros Hg.
  destruct (processRequestVote_writes s req) as ((_ & _ & _ & Hll & _) & Hterm & _).
  destruct (processRequestVote_grants s req) as [Hiff Hvote].
  apply Hiff in Hg as Hcond. specialize (Hvote Hg).
  destruct Hcond as (Hle & _ & Hidx & Htm).
  set (s' := (processRequestVote s req).1) in *.
  assert (currentTerm s' = RequestVoteRequest.Term req) as Hct by lia.
  injection Hll as Hli Hlt.
  unfold processRequestVote at 1. rewrite Hct, Z.ltb_irrefl.
  rewrite Hvote. rewrite (bool_decide_eq_true_2 (_ = RequestVoteRequest.CandidateName req)) by done.
  rewrite andb_false_r. unfold LastLog. rewrite Hli, Hlt.
  destruct (RequestVoteRequest.LastLogIndex req <? lastLogIndex s) eqn:E3; [lia|].
  destruct (RequestVoteRequest.LastLogTerm req <? lastLogTerm s) eqn:E4; [lia|].
  simpl. rewrite <- Hvote at 1. rewrite setVotedFor_same. by rewrite Hct.
Qed.

End HandlerMore.

Lemma processRequestVote_granted_again_witness :
  processRequestVote
    (processRequestVote (node "n1" (store_of []))
       (RequestVoteRequest.mk 1 "n2" 1 0)).1
    (RequestVoteRequest.mk 1 "n2" 1 0)
  = ((processRequestVote (node "n1" (store_of []))
        (RequestVoteRequest.mk 1 "n2" 1 0)).1,
     RequestVoteResponse.mk 1 true).
Proof.
  apply (processRequestVote_granted_again (node "n1" (store_of []))
           (RequestVoteRequest.mk 1 "n2" 1 0)).
  reflexivity.
Defined.

Section AppendMore.
Context {St : Type} {LS : LogStore St}.
Implicit Types (s : Server St).

Lemma afterTermCheck_role s (req : AppendEntryRequest.t) :
  currentTerm s <= AppendEntryRequest.Term req ->
  state (afterTermCheck s req) = Follower /\
  leader (afterTermCheck s req) = AppendEntryRequest.Leader req /\
  currentTerm (afterTermCheck s req) = AppendEntryRequest.Term req.
Proof.
  intros Hle. unfold afterTermCheck.
  destruct (currentTerm s <? AppendEntryRequest.Term req) eqn:E; simpl.
  - by rewrite setTerm_currentTerm.
  - destruct (bool_decide (state s = Follower)) eqn:Ef; simpl.
    + apply bool_decide_eq_true_1 in Ef. repeat split; [done | lia].
    + by rewrite setTerm_currentTerm.
Qed.

Lemma updateCommitIndex_frame (c : Z) s :
  state (updateCommitIndex c s) = state s /\
  leader (updateCommitIndex c s) = leader s /\
  currentTerm (updateCommitIndex c s) = currentTerm s /\
  LastLog (updateCommitIndex c s) = LastLog s /\
  logs (updateCommitIndex c s) = logs s.
Proof. unfold updateCommitIndex. by destruct (commitIndex s <? c). Qed.

(** [processAppendEntries] on a request whose term is not behind, written
    over the server as the term check leaves it. *)
Lemma processAppendEntries_unfold s (req : AppendEntryRequest.t) :
  currentTerm s <= AppendEntryRequest.Term req ->
  processAppendEntries s req
  = let s2 := afterTermCheck s req in
    let rejected :=
      AppendEntryResponse.mk (AppendEntryRequest.Term req) (lastLogIndex s)
        false in
    match localTermAt s (AppendEntryRequest.PrevLogIndex req) with
    | Panics => None
    | Fails _ => Some (s2, rejected)
    | Returns t =>
        if negb (AppendEntryRequest.PrevLogTerm req =? t)
        then Some (s2, rejected)
        else
          match AppendEntryRequest.Entries req with
          | [] =>
              Some (updateCommitIndex
                      (AppendEntryRequest.LeaderCommitIndex req) s2,
                    AppendEntryResponse.mk (AppendEntryRequest.Term req)
                      (lastLogIndex s) true)
          | first :: _ =>
              let last := List.last (AppendEntryRequest.Entries req) first in
              match truncateConflict s first with
              | Panics => None
              | Fails _ => Some (s2, rejected)
              | Returns l1 =>
                  match SetLogs l1 (AppendEntryRequest.Entries req) with
                  | Panics => None
                  | Fails _ => Some (setLogs l1 s2, rejected)
                  | Returns l =>
                      Some (updateCommitIndex
                              (AppendEntryRequest.LeaderCommitIndex req)
                              (setLastLog (Log.Index last) (Log.Term last)
                                 (setLogs l s2)),
                            AppendEntryResponse.mk
                              (AppendEntryRequest.Term req)
                              (Log.Index last) true)
                  end
              end
          end
    end.
Proof.
  intros Hle. unfold processAppendEntries.
  destruct (AppendEntryRequest.Term req <? currentTerm s) eqn:Et; [lia|].
  destruct (afterTermCheck_markers s req) as (Hi & Ht & Hc & Hl).
  pose proof (localTermAt_ext s (afterTermCheck s req)
                (AppendEntryRequest.PrevLogIndex req) Hi Ht Hl) as Hloc.
  pose proof (fun first =>
                truncateConflict_ext s (afterTermCheck s req) first Hi Hl)
    as Htr.
  unfold afterTermCheck in *.
  destruct (_ || _) eqn:Eb; simpl in *; rewrite Hloc.
  - destruct (localTermAt s _) as [t|e|]; [|done|done].
    destruct (AppendEntryRequest.PrevLogTerm req =? t); simpl; [|done].
    destruct (AppendEntryRequest.Entries req) as [|first rest]; [done|].
    rewrite Htr. destruct (truncateConflict s first) as [l1|e|]; [|done|done].
    by destruct (SetLogs l1 (first :: rest)).
  - apply orb_false_elim in Eb as [Eb _].
    replace (currentTerm s) with (AppendEntryRequest.Term req) by lia.
    destruct (localTermAt s _) as [t|e|]; [|done|done].
    destruct (AppendEntryRequest.PrevLogTerm req =? t); simpl; [|done].
    destruct (AppendEntryRequest.Entries req) as [|first rest]; [done|].
    rewrite Htr. destruct (truncateConflict s first) as [l1|e|]; [|done|done].
    by destruct (SetLogs l1 (first :: rest)).
Qed.

Lemma accepted_frame (c a b : Z) (l : St) s :
  let s4 := updateCommitIndex c (setLastLog a b (setLogs l s)) in
  state s4 = state s /\ leader s4 = leader s /\
  currentTerm s4 = currentTerm s /\
  lastLogIndex s4 = a /\ lastLogTerm s4 = b /\ logs s4 = l.
Proof.
  simpl. unfold updateCommitIndex.
  by destruct (commitIndex (setLastLog a b (setLogs l s)) <? c).
Qed.

Lemma processAppendEntries_outcome s (req : AppendEntryRequest.t) s' resp :
  processAppendEntries s req = Some (s', resp) ->
  (AppendEntryRequest.Term req < currentTerm s ->
   s' = s /\
   resp = AppendEntryResponse.mk (currentTerm s) (lastLogIndex s) false) /\
  (currentTerm s <= AppendEntryRequest.Term req ->
   state s' = Follower /\ leader s' = AppendEntryRequest.Leader req /\
   currentTerm s' = AppendEntryRequest.Term req) /\
  AppendEntryResponse.Term resp = currentTerm s' /\
  AppendEntryResponse.LastLogIndex resp = lastLogIndex s'.
Proof.
  intros Hrun.
  destruct (Z.lt_ge_cases (AppendEntryRequest.Term req) (currentTerm s))
    as [Hlt|Hle].
  - unfold processAppendEntries in Hrun.
    destruct (AppendEntryRequest.Term req <? currentTerm s) eqn:Et; [|lia].
    injection Hrun as <- <-. repeat split; (done || lia).
  - rewrite (processAppendEntries_unfold s req Hle) in Hrun.
    destruct (afterTermCheck_role s req Hle) as (Hst & Hld & Hct).
    destruct (afterTermCheck_markers s req) as (Hi & Ht & Hc & Hl).
    split; [lia|].
    set (s2 := afterTermCheck s req) in *. clearbody s2.
    pose proof (fun c a b l => accepted_frame c a b l s2) as Hacc.
    pose proof (updateCommitIndex_frame
                  (AppendEntryRequest.LeaderCommitIndex req) s2)
      as (Hu1 & Hu2 & Hu3 & Hu4 & Hu5).
    injection Hu4 as Hu4 Hu4'.
    simpl in Hrun, Hacc.
    repeat case_match; simplify_eq; simpl;
      try (edestruct Hacc as (-> & -> & -> & -> & _ & _));
      rewrite ?Hu1, ?Hu2, ?Hu3, ?Hu4, ?Hst, ?Hld, ?Hct, ?Hi; done.
Qed.

(** X10: however [processAppendEntries] returns, the response carries the
    term and the last log index the node holds after the call.  A request
    of an older term changes nothing and is answered with [success =
    false]; any other request, accepted or not, leaves the node a
    follower of the sender at the request's term. *)
Theorem processAppendEntries_role s (req : AppendEntryRequest.t) s' resp :
  processAppendEntries s req = Some (s', resp) ->
  (AppendEntryRequest.Term req < currentTerm s ->
   s' = s /\
   resp = AppendEntryResponse.mk (currentTerm s) (lastLogIndex s) false) /\
  (currentTerm s <= AppendEntryRequest.Term req ->
   state s' = Follower /\ leader s' = AppendEntryRequest.Leader req /\
   currentTerm s' = AppendEntryRequest.Term req) /\
  AppendEntryResponse.Term resp = currentTerm s' /\
  AppendEntryResponse.LastLogIndex resp = lastLogIndex s'.
Proof. exact (processAppendEntries_outcome s req s' resp). Qed.

Lemma processAppendEntries_success s (req : AppendEntryRequest.t)
    s' resp :
  processAppendEntries s req = Some (s', resp) ->
  AppendEntryResponse.Success resp = true ->
  currentTerm s <= AppendEntryRequest.Term req /\
  localTermAt s (AppendEntryRequest.PrevLogIndex req)
  = Returns (AppendEntryRequest.PrevLogTerm req) /\
  storeRequestEntries s (AppendEntryRequest.Entries req) = Returns (logs s') /\
  LastLog s' = lastLogAfter s (AppendEntryRequest.Entries req).
Proof.
  intros Hrun Hok.
  destruct (Z.lt_ge_cases (AppendEntryRequest.Term req) (currentTerm s))
    as [Hlt|Hle].
  { destruct (processAppendEntries_outcome s req s' resp Hrun) as [H _].
    destruct (H Hlt) as [_ ->]. done. }
  split; [done|].
  rewrite (processAppendEntries_unfold s req Hle) in Hrun.
  destruct (afterTermCheck_markers s req) as (Hi & Ht & Hc & Hl).
  set (s2 := afterTermCheck s req) in *. clearbody s2.
  pose proof (fun c a b l => accepted_frame c a b l s2) as Hacc.
  pose proof (updateCommitIndex_frame
                (AppendEntryRequest.LeaderCommitIndex req) s2)
    as (_ & _ & _ & Hu4 & Hu5).
  injection Hu4 as Hu4 Hu4'.
  unfold storeRequestEntries, storeEntries, lastLogAfter, LastLog in *.
  simpl in Hrun, Hacc.
  destruct (localTermAt s _) as [t|e|]; [|by simplify_eq|done].
  destruct (AppendEntryRequest.PrevLogTerm req =? t) eqn:Et; simpl in Hrun;
    [|by simplify_eq].
  apply Z.eqb_eq in Et as <-. split; [done|].
  destruct (AppendEntryRequest.Entries req) as [|first rest].
  - simplify_eq. rewrite Hu5, Hu4, Hu4', Hl, Hi, Ht. done.
  - destruct (truncateConflict s first) as [l1|e|]; [|by simplify_eq|done].
    simpl. destruct (SetLogs l1 (first :: rest)) as [l|e|];
      [|by simplify_eq|done].
    simplify_eq.
    edestruct Hacc as (_ & _ & _ & -> & -> & ->). done.
Qed.

(** X11: [processAppendEntries] answers [success = true] only to a request
    whose term is not behind, whose [prevLogTerm] is the term the node
    holds for [prevLogIndex], and whose entries the store took; the node
    then holds that store, and its markers are those of the last entry of
    the request (as they were, for a request without entries). *)
Theorem processAppendEntries_success_only_if s (req : AppendEntryRequest.t)
    s' resp :
  processAppendEntries s req = Some (s', resp) ->
  AppendEntryResponse.Success resp = true ->
  currentTerm s <= AppendEntryRequest.Term req /\
  localTermAt s (AppendEntryRequest.PrevLogIndex req)
  = Returns (AppendEntryRequest.PrevLogTerm req) /\
  storeRequestEntries s (AppendEntryRequest.Entries req) = Returns (logs s') /\
  LastLog s' = lastLogAfter s (AppendEntryRequest.Entries req).
Proof. exact (processAppendEntries_success s req s' resp). Qed.

End AppendMore.

Lemma List_last_default {A : Type} (l : list A) :
  forall x d d' : A, List.last (x :: l) d = List.last (x :: l) d'.
Proof.
  induction l as [|y l IH]; intros x d d'; [done|].
  change (List.last (y :: l) d = List.last (y :: l) d'). apply IH.
Qed.

Lemma last_List_last {A : Type} (l : list A) :
  forall x : A, last (x :: l) = Some (List.last (x :: l) x).
Proof.
  induction l as [|y l IH]; intros x; [done|].
  rewrite last_cons_cons, IH. f_equal.
  change (List.last (y :: l) y = List.last (y :: l) x).
  apply List_last_default.
Qed.

Lemma markers_of_app_cons (es : list Log.t) (first : Log.t) (rest : list Log.t) :
  markers_of (es ++ first :: rest)
  = (Log.Index (List.last (first :: rest) first),
     Log.Term (List.last (first :: rest) first)).
Proof.
  unfold markers_of. by rewrite last_app, last_List_last.
Qed.

(** X12: on the in-memory store a request without entries (a heartbeat)
    never panics and never touches the log: whatever its term and its
    previous-log fields, the call returns, and the store and the cached
    last-log markers are what they were. *)
Theorem processAppendEntries_heartbeat (s : Server InmemLogStore.t)
    (req : AppendEntryRequest.t) :
  AppendEntryRequest.Entries req = [] ->
  exists s' resp,
    processAppendEntries s req = Some (s', resp) /\
    logs s' = logs s /\ LastLog s' = LastLog s /\
    AppendEntryResponse.LastLogIndex resp = lastLogIndex s.
Proof.
  intros He.
  destruct (Z.lt_ge_cases (AppendEntryRequest.Term req) (currentTerm s))
    as [Hlt|Hle].
  - unfold processAppendEntries.
    destruct (AppendEntryRequest.Term req <? currentTerm s) eqn:Et; [|lia].
    by eauto 10.
  - rewrite (processAppendEntries_unfold s req Hle), He.
    destruct (afterTermCheck_markers s req) as (Hi & Ht & Hc & Hl).
    pose proof (localTermAt_inmem_not_Panics s
                  (AppendEntryRequest.PrevLogIndex req)) as Hnp.
    set (s2 := afterTermCheck s req) in *. clearbody s2.
    pose proof (updateCommitIndex_frame
                  (AppendEntryRequest.LeaderCommitIndex req) s2)
      as (_ & _ & _ & Hu4 & Hu5).
    unfold LastLog in *. simpl.
    destruct (localTermAt s _) as [t|e|]; [| |done].
    + destruct (negb _); eexists _, _; (split; [reflexivity|]); simpl;
        rewrite ?Hu5, ?Hu4, ?Hl, ?Hi, ?Ht; done.
    + eexists _, _; (split; [reflexivity|]); simpl;
        rewrite ?Hl, ?Hi, ?Ht; done.
Qed.

Lemma processAppendEntries_heartbeat_witness :
  exists s' resp,
    processAppendEntries follower_5_3 (AppendEntryRequest.mk 3 "n2" 5 3 [] 4)
    = Some (s', resp) /\
    logs s' = logs follower_5_3 /\ LastLog s' = LastLog follower_5_3 /\
    AppendEntryResponse.LastLogIndex resp = lastLogIndex follower_5_3.
Proof.
  apply (processAppendEntries_heartbeat follower_5_3
           (AppendEntryRequest.mk 3 "n2" 5 3 [] 4)).
  reflexivity.
Defined.

(** X13: on the in-memory store, a request that passes the term and the
    consistency check and whose first entry lies past the node's last
    index is answered with success: its entries are appended, in their
    order, to the log as it was, and the markers become the index and the
    term of its last entry. *)
Theorem processAppendEntries_appends (s : Server InmemLogStore.t)
    (req : AppendEntryRequest.t) (first : Log.t) (rest : list Log.t) :
  currentTerm s <= AppendEntryRequest.Term req ->
  localTermAt s (AppendEntryRequest.PrevLogIndex req)
  = Returns (AppendEntryRequest.PrevLogTerm req) ->
  AppendEntryRequest.Entries req = first :: rest ->
  lastLogIndex s < Log.Index first ->
  exists s' resp,
    processAppendEntries s req = Some (s', resp) /\
    AppendEntryResponse.Success resp = true /\
    InmemLogStore.entries (logs s')
    = InmemLogStore.entries (logs s) ++ first :: rest /\
    LastLog s' = markers_of (first :: rest) /\
    AppendEntryResponse.LastLogIndex resp = (markers_of (first :: rest)).1.
Proof.
  intros Hle Hloc He Hlt.
  pose proof (storeRequestEntries_inmem_append s first rest Hlt) as Hst.
  rewrite <- He in Hst at 1.
  destruct (processAppendEntries_accepted s req _ Hle Hloc Hst)
    as (resp & Hrun & Hok & Hidx).
  eexists _, resp. split; [exact Hrun|]. split; [exact Hok|].
  pose proof (markers_of_app_cons [] first rest) as Hm. simpl in Hm.
  destruct (accepted_frame (AppendEntryRequest.LeaderCommitIndex req)
              (lastLogAfter s (AppendEntryRequest.Entries req)).1
              (lastLogAfter s (AppendEntryRequest.Entries req)).2
              (InmemLogStore.mk (InmemLogStore.entries (logs s) ++ first :: rest))
              (afterTermCheck s req)) as (_ & _ & _ & Hi & Ht & Hl).
  unfold LastLog. rewrite Hl, Hi, Ht, Hidx, Hm. rewrite He. simpl. done.
Qed.

Lemma processAppendEntries_appends_witness :
  exists s' resp,
    processAppendEntries follower_5_3
      (AppendEntryRequest.mk 3 "n2" 5 3 [entry_at 6 3; entry_at 7 3] 5)
    = Some (s', resp) /\
    AppendEntryResponse.Success resp = true /\
    InmemLogStore.entries (logs s')
    = InmemLogStore.entries (logs follower_5_3)
      ++ [entry_at 6 3; entry_at 7 3] /\
    LastLog s' = markers_of [entry_at 6 3; entry_at 7 3] /\
    AppendEntryResponse.LastLogIndex resp
    = (markers_of [entry_at 6 3; entry_at 7 3]).1.
Proof.
  apply (processAppendEntries_appends follower_5_3
           (AppendEntryRequest.mk 3 "n2" 5 3 [entry_at 6 3; entry_at 7 3] 5)
           (entry_at 6 3) [entry_at 7 3]); reflexivity.
Defined.

Lemma truncateConflict_inmem_not_Fails (s : Server InmemLogStore.t)
    (first : Log.t) (err : error) :
  truncateConflict s first <> Fails err.
Proof.
  unfold truncateConflict.
  destruct (Log.Index first <=? lastLogIndex s); [|done].
  simpl. unfold InmemLogStore.DeleteRange, omap, obind.
  pose proof (DeleteRange_loop_not_Fails
                (Z.to_nat (lastLogIndex s - Log.Index first)) (Log.Index first)
                (InmemLogStore.entries (logs s)) err).
  destruct (InmemLogStore.DeleteRange_loop _ _ _); congruence.
Qed.

(** On the in-memory store a request that is not answered with success
    leaves the store and the markers as they were. *)
Lemma processAppendEntries_inmem_rejected (s : Server InmemLogStore.t)
    (req : AppendEntryRequest.t) s' resp :
  processAppendEntries s req = Some (s', resp) ->
  AppendEntryResponse.Success resp = false ->
  logs s' = logs s /\ LastLog s' = LastLog s.
Proof.
  intros Hrun Hno.
  destruct (Z.lt_ge_cases (AppendEntryRequest.Term req) (currentTerm s))
    as [Hlt|Hle].
  { destruct (processAppendEntries_outcome s req s' resp Hrun) as [H _].
    by destruct (H Hlt) as [-> _]. }
  rewrite (processAppendEntries_unfold s req Hle) in Hrun.
  destruct (afterTermCheck_markers s req) as (Hi & Ht & Hc & Hl).
  pose proof (truncateConflict_inmem_not_Fails s) as Hnf.
  set (s2 := afterTermCheck s req) in *. clearbody s2.
  unfold LastLog. simpl in Hrun.
  destruct (localTermAt s _) as [t|e|]; [|simplify_eq; by rewrite Hl, Hi, Ht|done].
  destruct (negb _); [simplify_eq; by rewrite Hl, Hi, Ht|].
  destruct (AppendEntryRequest.Entries req) as [|first rest];
    [by simplify_eq|].
  destruct (truncateConflict s first) as [l1|e|] eqn:Etr;
    [|by destruct (Hnf first e)|done].
  simpl in Hrun. by simplify_eq.
Qed.

Lemma coherent_steps (s : Server InmemLogStore.t) :
  coherent s ->
  (forall cmd s' reply, processRPC s cmd = Some (s', reply) -> coherent s') /\
  (forall newLog s' entry notified,
      dispatchLog s newLog = Some (s', entry, notified) -> coherent s') /\
  (forall resp, coherent (processRequestVoteResponse s resp).1).
Proof.
  intros Hco. split; [|split].
  - intros cmd s' reply. destruct cmd as [req|req|]; simpl.
    + destruct (processAppendEntries s req) as [[s1 resp]|] eqn:Hrun; [|done].
      intros [= <- <-].
      destruct (AppendEntryResponse.Success resp) eqn:Hok.
      * destruct (processAppendEntries_success s req s1 resp Hrun Hok)
          as (_ & _ & Hst & Hll).
        unfold coherent. rewrite Hll.
        unfold storeRequestEntries, storeEntries, lastLogAfter in *.
        destruct (AppendEntryRequest.Entries req) as [|first rest].
        { injection Hst as <-. exact Hco. }
        destruct (truncateConflict s first) as [l1|e|]; [|done|done].
        simpl in Hst. injection Hst as <-.
        unfold InmemLogStore.SetLogs in *.
        change (InmemLogStore.entries (InmemLogStore.mk ?x)) with x.
        rewrite SetLogs_fold, <- app_assoc. symmetry.
        apply (markers_of_app_cons (InmemLogStore.entries l1) first rest).
      * destruct (processAppendEntries_inmem_rejected s req s1 resp Hrun Hok)
          as [Hl Hll].
        unfold coherent. by rewrite Hll, Hl.
    + pose proof (processRequestVote_writes s req) as ((_ & _ & _ & Hll & Hl & _) & _).
      destruct (processRequestVote s req) as [s1 resp]. simpl in *.
      intros [= <- <-]. unfold coherent. by rewrite Hll, Hl.
    + by intros [= <- <-].
  - intros newLog s' entry notified. unfold dispatchLog. simpl.
    intros [= <- <- <-]. unfold coherent, LastLog, markers_of. simpl.
    by rewrite last_snoc.
  - intros resp. unfold processRequestVoteResponse.
    destruct (_ && _); [done|].
    destruct (currentTerm s <? RequestVoteResponse.Term resp); [|done].
    unfold coherent, LastLog in *. simpl.
    destruct (setTerm_markers (RequestVoteResponse.Term resp) s)
      as (-> & -> & _ & ->). done.
Qed.

(** X14: on the in-memory store the cached last-log markers keep
    describing the last stored entry: when they do before an inbound RPC,
    a proposal or a vote response is handled, they do afterwards,
    whatever the request holds and also when [DeleteRange] has cut the
    log. *)
Theorem coherent_preserved (s : Server InmemLogStore.t) :
  coherent s ->
  (forall cmd s' reply, processRPC s cmd = Some (s', reply) -> coherent s') /\
  (forall newLog s' entry notified,
      dispatchLog s newLog = Some (s', entry, notified) -> coherent s') /\
  (forall resp, coherent (processRequestVoteResponse s resp).1).
Proof. exact (coherent_steps s). Qed.

Lemma coherent_preserved_witness :
  coherent (processRequestVoteResponse follower_5_3
              (RequestVoteResponse.mk 9 false)).1.
Proof.
  apply (coherent_preserved follower_5_3). reflexivity.
Defined.

(** * Further properties of the loops *)

Section LoopMore.
Context {St : Type} {LS : LogStore St}.
Implicit Types (s : Server St).



Lemma processRPC_term s (cmd : Command) s' reply :
  processRPC s cmd = Some (s', reply) -> currentTerm s <= currentTerm s'.
Proof.
  destruct cmd as [req|req|]; simpl.
  - destruct (processAppendEntries s req) as [[s1 resp]|] eqn:Hrun; [|done].
    intros [= <- <-].
    destruct (processAppendEntries_outcome s req s1 resp Hrun) as (Hst & Hnew & _).
    destruct (Z.lt_ge_cases (AppendEntryRequest.Term req) (currentTerm s))
      as [Hlt|Hle].
    + destruct (Hst Hlt) as [-> _]. lia.
    + destruct (Hnew Hle) as (_ & _ & ->). lia.
  - pose proof (processRequestVote_writes s req) as (_ & Hmax & _).
    destruct (processRequestVote s req) as [s1 resp]. simpl in *.
    intros [= <- <-]. lia.
  - intros [= <- <-]. lia.
Qed.

Lemma dispatchLog_frame s (newLog : Log.t) s' entry notified :
  dispatchLog s newLog = Some (s', entry, notified) ->
  currentTerm s' = currentTerm s /\ state s' = state s /\
  followers s' = followers s /\ commitIndex s' = commitIndex s /\
  entry = stamp s newLog.
Proof.
  unfold dispatchLog.
  destruct (SetLog (logs s) (stamp s newLog)); [| |done];
    by intros [= <- <- <-].
Qed.

Lemma startReplication_fold_frame (ps : list string) :
  forall s,
    let s' := foldl startReplication s ps in
    currentTerm s' = currentTerm s /\ state s' = state s /\
    LastLog s' = LastLog s /\ logs s' = logs s /\
    commitIndex s' = commitIndex s /\ votedFor s' = votedFor s /\
    leader s' = leader s /\ peers s' = peers s /\
    localAddress s' = localAddress s /\ applying s' = applying s.
Proof.
  induction ps as [|p ps IH]; intros s; simpl; [done|].
  destruct (IH (startReplication s p))
    as (-> & -> & -> & -> & -> & -> & -> & -> & -> & ->).
  done.
Qed.

Lemma startReplication_fold_followers (ps : list string) :
  forall s (p : string),
    followers (foldl startReplication s ps) !! p
    = if bool_decide (p ∈ ps)
      then Some (mkFollower p (currentTerm s) 0 (u64 (lastLogIndex s + 1)))
      else followers s !! p.
Proof.
  induction ps as [|q ps IH]; intros s p.
  - case_bool_decide as E; [by apply elem_of_nil in E | done].
  - change (foldl startReplication s (q :: ps))
      with (foldl startReplication (startReplication s q) ps).
    rewrite IH.
    change (currentTerm (startReplication s q)) with (currentTerm s).
    change (lastLogIndex (startReplication s q)) with (lastLogIndex s).
    change (followers (startReplication s q))
      with (<[q := mkFollower q (currentTerm s) 0 (u64 (lastLogIndex s + 1))]>
              (followers s)).
    repeat case_bool_decide; try done.
    + exfalso. match goal with H : ¬ _ ∈ _ :: _ |- _ => apply H end. by right.
    + match goal with H : _ ∈ _ :: _ |- _ =>
        apply elem_of_cons in H as [->|?]; [|done] end.
      by rewrite lookup_insert_eq.
    + rewrite lookup_insert_ne; [done|].
      intros ->. match goal with H : ¬ _ ∈ _ :: _ |- _ => apply H end. by left.
Qed.

(** X15: on entry the leader loop drops the follower records and the
    in-flight entries of an earlier tenure and makes one record for every
    peer, and for nobody else, with the node's term, [matchIndex] 0 and
    [nextIndex] one past the node's last index; nothing else of the
    server changes. *)
Theorem leaderInit_followers s :
  (forall p : string,
      followers (leaderInit s) !! p
      = if bool_decide (p ∈ peers s)
        then Some (mkFollower p (currentTerm s) 0 (u64 (lastLogIndex s + 1)))
        else None) /\
  applying (leaderInit s) = ∅ /\
  currentTerm (leaderInit s) = currentTerm s /\
  state (leaderInit s) = state s /\
  votedFor (leaderInit s) = votedFor s /\
  LastLog (leaderInit s) = LastLog s /\ logs (leaderInit s) = logs s /\
  commitIndex (leaderInit s) = commitIndex s.
Proof.
  unfold leaderInit.
  destruct (startReplication_fold_frame (peers s) (setApplying ∅ (setFollowers ∅ s)))
    as (Ht & Hst & Hll & Hl & Hc & Hv & _ & _ & _ & Ha).
  split; [|by rewrite Ht, Hst, Hll, Hl, Hc, Hv, Ha].
  intros p. rewrite startReplication_fold_followers. simpl.
  by rewrite lookup_empty.
Qed.

Lemma runAsFollower_loop_term (evs : list FollowerEvent) :
  forall s replies,
    currentTerm s
    <= currentTerm (frun_server (runAsFollower_loop evs s replies)).
Proof.
  induction evs as [|ev evs IH]; intros s replies; simpl;
    (destruct (bool_decide (state s = Follower)); simpl; [|lia]); [lia|].
  destruct ev as [cmd| |]; simpl; [| |lia].
  - destruct (processRPC s cmd) as [[s1 reply]|] eqn:E; simpl; [|lia].
    pose proof (processRPC_term _ _ _ _ E).
    specialize (IH s1 (replies ++ [reply])). lia.
  - apply (IH (setState Candidate s)).
Qed.

Lemma runAsLeader_loop_term (evs : list LeaderEvent) :
  forall s replies dispatched,
    currentTerm s
    <= currentTerm (lrun_server (runAsLeader_loop evs s replies dispatched)).
Proof.
  induction evs as [|ev evs IH]; intros s replies dispatched; simpl;
    (destruct (bool_decide (state s = Leader)); simpl; [|lia]); [lia|].
  destruct ev as [|cmd|newLog|commitLog]; simpl; [lia| | |].
  - destruct (processRPC s cmd) as [[s1 reply]|] eqn:E; simpl; [|lia].
    pose proof (processRPC_term _ _ _ _ E).
    specialize (IH s1 (replies ++ [reply]) dispatched). lia.
  - destruct (dispatchLog s newLog) as [[[s1 entry] n]|] eqn:E; simpl; [|lia].
    destruct (dispatchLog_frame _ _ _ _ _ E) as (Ht & _).
    specialize (IH s1 replies (dispatched ++ [entry])). lia.
  - apply (IH (setCommitIndex (Log.Index commitLog) s)).
Qed.

(** X16: the term of a node never goes down: not through an inbound RPC
    of any kind, not through a vote response, and not over any run of the
    follower loop or of the leader loop, whatever the events. *)
Theorem currentTerm_never_decreases s :
  (forall cmd s' reply,
      processRPC s cmd = Some (s', reply) -> currentTerm s <= currentTerm s') /\
  (forall resp,
      currentTerm s <= currentTerm (processRequestVoteResponse s resp).1) /\
  (forall evs,
      currentTerm s <= currentTerm (frun_server (runAsFollower s evs))) /\
  (forall evs,
      currentTerm s <= currentTerm (lrun_server (runAsLeader s evs))).
Proof.
  split; [|split; [|split]].
  - apply processRPC_term.
  - intros resp. unfold processRequestVoteResponse.
    destruct (_ && _); simpl; [lia|].
    destruct (currentTerm s <? RequestVoteResponse.Term resp) eqn:E; simpl;
      [rewrite setTerm_currentTerm|]; lia.
  - intros evs. apply runAsFollower_loop_term.
  - intros evs. unfold runAsLeader.
    pose proof (runAsLeader_loop_term evs (leaderInit s) [] []) as H.
    unfold leaderInit in *.
    destruct (startReplication_fold_frame (peers s)
                (setApplying ∅ (setFollowers ∅ s))) as (Ht & _).
    simpl in Ht. lia.
Qed.












(** X22: the leader takes its commit index from the commit notification
    it handled last, whatever the order of the indices: after a run of
    notifications the commit index is the index of the last one, also
    when an earlier one was higher, and nothing else of the server has
    changed. *)
Theorem runAsLeader_commit_last_wins s (cs : list Log.t) (c : Log.t)
    (replies : list Reply) (dispatched : list Log.t) :
  state s = Leader ->
  runAsLeader_loop (map LEvCommit (cs ++ [c])) s replies dispatched
  = mkLeaderRun (setCommitIndex (Log.Index c) s) replies dispatched ∅ []
      Waiting.
Proof.
  revert s. induction cs as [|c0 cs IH]; intros s Hst; simpl;
    rewrite Hst; simpl.
  - done.
  - by rewrite IH.
Qed.

End LoopMore.

Lemma runAsLeader_loop_apply {St : Type} {LS : LogStore St} (s : Server St)
    (newLog : Log.t) (evs : list LeaderEvent) (replies : list Reply)
    (dispatched : list Log.t) :
  state s = Leader ->
  runAsLeader_loop (LEvApply newLog :: evs) s replies dispatched
  = match dispatchLog s newLog with
    | None => mkLeaderRun s replies dispatched ∅ evs Panicked
    | Some (s1, entry, _) =>
        runAsLeader_loop evs s1 replies (dispatched ++ [entry])
    end.
Proof. intros Hst. simpl. by rewrite Hst. Qed.

Lemma dispatchLog_inmem (s : Server InmemLogStore.t) (newLog : Log.t) :
  0 <= lastLogIndex s -> lastLogIndex s + 1 < 2 ^ 64 ->
  exists s',
    dispatchLog s newLog = Some (s', stampAt s 0 newLog, dom (followers s)) /\
    InmemLogStore.entries (logs s')
    = InmemLogStore.entries (logs s) ++ [stampAt s 0 newLog] /\
    lastLogIndex s' = lastLogIndex s + 1 /\
    lastLogTerm s' = currentTerm s /\
    applying s' = <[lastLogIndex s + 1 := stampAt s 0 newLog]> (applying s) /\
    currentTerm s' = currentTerm s /\ state s' = state s /\
    peers s' = peers s.
Proof.
  intros Hge Hlt.
  assert (u64 (lastLogIndex s + 1) = lastLogIndex s + 1) as Hu
    by (unfold u64; apply Z.mod_small; lia).
  assert (stamp s newLog = stampAt s 0 newLog) as Hs.
  { unfold stamp, stampAt. rewrite Hu. f_equal. lia. }
  unfold dispatchLog. simpl. rewrite Hs, Hu.
  eexists. split; [reflexivity|]. simpl.
  repeat split; done.
Qed.

(** X23: proposals handled by a leader on the in-memory store, while the
    indices stay below [2^64]: the [k]-th one (from 0) is stored with the
    index [lastLogIndex + k + 1], the leader's term, the quorum size and
    the count 0; the entries are appended to the log in the order of the
    proposals, each is in the in-flight map under its index, the in-flight
    entries of lower indices are kept, and the last index has grown by
    the number of proposals. *)
Theorem runAsLeader_proposals (s : Server InmemLogStore.t)
    (newLogs : list Log.t) (replies : list Reply) (dispatched : list Log.t) :
  state s = Leader ->
  0 <= lastLogIndex s ->
  lastLogIndex s + Z.of_nat (length newLogs) < 2 ^ 64 ->
  let r := runAsLeader_loop (map LEvApply newLogs) s replies dispatched in
  let new := imap (stampAt s) newLogs in
  lrun_end r = Waiting /\ lrun_replies r = replies /\
  lrun_dispatched r = dispatched ++ new /\
  InmemLogStore.entries (logs (lrun_server r))
  = InmemLogStore.entries (logs s) ++ new /\
  lastLogIndex (lrun_server r) = lastLogIndex s + Z.of_nat (length newLogs) /\
  currentTerm (lrun_server r) = currentTerm s /\
  state (lrun_server r) = Leader /\
  (forall (k : nat) (e : Log.t),
      new !! k = Some e ->
      applying (lrun_server r) !! (lastLogIndex s + Z.of_nat k + 1) = Some e) /\
  (forall i : Z,
      i <= lastLogIndex s ->
      applying (lrun_server r) !! i = applying s !! i).
Proof.
  revert s replies dispatched.
  induction newLogs as [|p ps IH]; intros s replies dispatched Hst Hge Hlt.
  - simpl. rewrite Hst. simpl. rewrite !app_nil_r.
    repeat split; (done || lia).
  - simpl in Hlt.
    destruct (dispatchLog_inmem s p Hge ltac:(lia))
      as (s1 & Hd & Hl1 & Hi1 & Ht1 & Ha1 & Hc1 & Hs1 & Hp1).
    change (map LEvApply (p :: ps)) with (LEvApply p :: map LEvApply ps).
    rewrite (runAsLeader_loop_apply s p _ _ _ Hst), Hd.
    change (imap (stampAt s) (p :: ps))
      with (stampAt s 0 p :: imap (stampAt s ∘ S) ps).
    cbv zeta.
    destruct (IH s1 replies (dispatched ++ [stampAt s 0 p])
                ltac:(congruence) ltac:(lia) ltac:(lia))
      as (He & Hr & Hdis & Hlog & Hidx & Hterm & Hstate & Hin & Hframe).
    assert (imap (stampAt s1) ps = imap (stampAt s ∘ S) ps) as Hnew.
    { apply imap_ext. intros k x _. unfold stampAt, QuorumSize. simpl.
      rewrite Hi1, Hc1, Hp1. f_equal. lia. }
    rewrite Hnew in *.
    split; [done|]. split; [done|].
    split; [by rewrite Hdis, <- app_assoc|].
    split; [by rewrite Hlog, Hl1, <- app_assoc|].
    split; [rewrite Hidx, Hi1; simpl length; lia|].
    split; [congruence|]. split; [done|]. split.
    + intros k e. destruct k as [|k].
      * intros [= <-]. rewrite Hframe by lia. rewrite Ha1.
        replace (lastLogIndex s + Z.of_nat 0 + 1) with (lastLogIndex s + 1)
          by lia.
        apply lookup_insert_eq.
      * intros Hk. specialize (Hin k e Hk).
        replace (lastLogIndex s + Z.of_nat (S k) + 1)
          with (lastLogIndex s1 + Z.of_nat k + 1) by lia.
        exact Hin.
    + intros i Hi. rewrite Hframe by lia. rewrite Ha1.
      apply lookup_insert_ne. lia.
Qed.

Section CoherentRuns.
Implicit Types (s : Server InmemLogStore.t).







End CoherentRuns.

(** * Instances of the further properties *)

Lemma processAppendEntries_role_witness :
  state follower_5_3 = Follower /\
  leader follower_5_3 = AppendEntryRequest.Leader heartbeat_5_3 /\
  currentTerm follower_5_3 = AppendEntryRequest.Term heartbeat_5_3.
Proof.
  apply (processAppendEntries_role follower_5_3 heartbeat_5_3 follower_5_3
           (AppendEntryResponse.mk 3 5 true) eq_refl).
  simpl. lia.
Defined.

Lemma processAppendEntries_success_only_if_witness :
  currentTerm follower_5_3 <= AppendEntryRequest.Term heartbeat_5_3 /\
  localTermAt follower_5_3 (AppendEntryRequest.PrevLogIndex heartbeat_5_3)
  = Returns (AppendEntryRequest.PrevLogTerm heartbeat_5_3) /\
  storeRequestEntries follower_5_3 (AppendEntryRequest.Entries heartbeat_5_3)
  = Returns (logs follower_5_3) /\
  LastLog follower_5_3
  = lastLogAfter follower_5_3 (AppendEntryRequest.Entries heartbeat_5_3).
Proof.
  exact (processAppendEntries_success_only_if follower_5_3 heartbeat_5_3
           follower_5_3 (AppendEntryResponse.mk 3 5 true) eq_refl eq_refl).
Defined.






Lemma runAsLeader_commit_last_wins_witness :
  runAsLeader_loop (map LEvCommit ([entry_at 7 2] ++ [entry_at 3 2])) leader_2
    [] []
  = mkLeaderRun (setCommitIndex 3 leader_2) [] [] ∅ [] Waiting.
Proof.
  exact (runAsLeader_commit_last_wins leader_2 [entry_at 7 2] (entry_at 3 2)
           [] [] eq_refl).
Defined.

Lemma runAsLeader_proposals_witness :
  InmemLogStore.entries
    (logs (lrun_server
             (runAsLeader_loop (map LEvApply [proposal; proposal]) leader_2
                [] [])))
  = InmemLogStore.entries (logs leader_2)
    ++ imap (stampAt leader_2) [proposal; proposal].
Proof.
  apply (runAsLeader_proposals leader_2 [proposal; proposal] [] [] eq_refl).
  - simpl. lia.
  - simpl. lia.
Defined.


(** X25: on the in-memory store, when the first entry of an accepted
    request has exactly the node's last index, the range handed to
    [DeleteRange] is empty and nothing is deleted: the entries of the
    request are appended after the entry they were to replace, and a
    lookup of that index keeps returning the old entry. *)
Theorem processAppendEntries_conflict_at_last (s : Server InmemLogStore.t)
    (req : AppendEntryRequest.t) (first : Log.t) (rest : list Log.t) :
  currentTerm s <= AppendEntryRequest.Term req ->
  localTermAt s (AppendEntryRequest.PrevLogIndex req)
  = Returns (AppendEntryRequest.PrevLogTerm req) ->
  AppendEntryRequest.Entries req = first :: rest ->
  Log.Index first = lastLogIndex s ->
  exists s' resp,
    processAppendEntries s req = Some (s', resp) /\
    AppendEntryResponse.Success resp = true /\
    InmemLogStore.entries (logs s')
    = InmemLogStore.entries (logs s) ++ first :: rest /\
    (forall e : Log.t,
        GetLog (logs s) (Log.Index first) = Returns e ->
        GetLog (logs s') (Log.Index first) = Returns e).
Proof.
  intros Hle Hloc He Hidx.
  assert (storeRequestEntries s (AppendEntryRequest.Entries req)
          = Returns (InmemLogStore.mk
                       (InmemLogStore.entries (logs s) ++ first :: rest)))
    as Hst.
  { rewrite He. unfold storeRequestEntries, storeEntries, truncateConflict.
    rewrite Hidx, Z.leb_refl. simpl. unfold InmemLogStore.DeleteRange.
    rewrite Z.sub_diag. simpl. unfold InmemLogStore.SetLogs. simpl.
    by rewrite SetLogs_fold, <- app_assoc. }
  destruct (processAppendEntries_accepted s req _ Hle Hloc Hst)
    as (resp & Hrun & Hok & _).
  eexists _, resp. split; [exact Hrun|]. split; [exact Hok|].
  destruct (accepted_frame (AppendEntryRequest.LeaderCommitIndex req)
              (lastLogAfter s (AppendEntryRequest.Entries req)).1
              (lastLogAfter s (AppendEntryRequest.Entries req)).2
              (InmemLogStore.mk (InmemLogStore.entries (logs s) ++ first :: rest))
              (afterTermCheck s req)) as (_ & _ & _ & _ & _ & Hl).
  rewrite Hl. split; [done|].
  intros e. simpl. unfold InmemLogStore.GetLog. simpl.
  rewrite GetLog_range_app. by intros ->.
Qed.

Lemma processAppendEntries_conflict_at_last_witness :
  exists s' resp,
    processAppendEntries follower_5_3
      (AppendEntryRequest.mk 4 "n3" 4 3 [entry_at 5 4] 4)
    = Some (s', resp) /\
    AppendEntryResponse.Success resp = true /\
    InmemLogStore.entries (logs s')
    = InmemLogStore.entries (logs follower_5_3) ++ [entry_at 5 4] /\
    (forall e : Log.t,
        GetLog (logs follower_5_3) (Log.Index (entry_at 5 4)) = Returns e ->
        GetLog (logs s') (Log.Index (entry_at 5 4)) = Returns e).
Proof.
  apply (processAppendEntries_conflict_at_last follower_5_3
           (AppendEntryRequest.mk 4 "n3" 4 3 [entry_at 5 4] 4)
           (entry_at 5 4) []); try reflexivity.
  simpl. lia.
Defined.
